(** * Value iteration with an error-rate stopping bound

    A shallow embedding of [mdp_framework/agent/value_iteration_error_rate.py]
    (class [Agent]): the constructor that runs the sweeps and builds the
    policy, [actionMaximumExpectedUtility] and [getAction].

    Python floats are IEEE 754 binary64 numbers; they are modelled by Rocq's
    primitive floats, which are the same numbers with the same rounding.
    Dictionaries are finite maps, a subscript on a missing key raises
    [KeyError], a float division by zero raises [ZeroDivisionError]. *)

From Stdlib Require Import Floats ZArith Zpower Lia.
From stdpp Require Import gmap strings list.

Set Warnings "-inexact-float,-clear-no-such-hyp".

(** ** The fragment of Python the class relies on *)

(** The exceptions the code of the class can raise by itself. *)
Inductive exn : Set :=
  | KeyError
  | ZeroDivisionError.

Inductive result (A : Type) : Type :=
  | Ok (a : A)
  | Raise (e : exn).
Arguments Ok {A} a.
Arguments Raise {A} e.

#[global] Instance result_ret : MRet result := λ A, Ok.
#[global] Instance result_bind : MBind result :=
  λ A B f m, match m with Ok a => f a | Raise e => Raise e end.

(** [d[k]] *)
Definition py_getitem {K V : Type} `{Countable K} (d : gmap K V) (k : K) : result V :=
  match d !! k with
  | Some v => Ok v
  | None => Raise KeyError
  end.

(** [x / y] on floats *)
Definition py_truediv (x y : float) : result float :=
  if (y =? 0)%float then Raise ZeroDivisionError else Ok (x / y)%float.

(** [x > y] on floats *)
Definition py_gt (x y : float) : bool := (y <? x)%float.

(** [for x in l: acc = body(acc, x)], stopping at the first exception *)
Fixpoint py_for {A B : Type} (l : list A) (body : B → A → result B) (acc : B) : result B :=
  match l with
  | [] => Ok acc
  | x :: l' => acc' ← body acc x; py_for l' body acc'
  end.

Section Agent.
Context {State Action : Type} `{Countable State}.

(** The environment is a collaborator of the class, defined in another
    module: here are the attributes and methods the agent uses.  [stateSet]
    and [actionSet] are given in their enumeration order. *)
Record Environment : Type := {
  stateSet : list State;
  actionSet : list Action;
  finalStateSet : gset State;
  reward : State → float;
  transition : State → Action → gmap State float
}.

(** What the constructor writes on the console: one call of
    [environment.displayValueFunction] and one [print] per sweep. *)
Inductive event : Type :=
  | DisplayValueFunction (valueUtility : gmap State float) (iteration : nat)
  | Print (iteration : nat) (maximum_change_utility : float).

(** The attributes of [self].  [policy] maps a state to an action or to
    Python's [None]. *)
Record Agent : Type := {
  environment : Environment;
  discountFactor : float;
  maximumErrorRate : float;
  valueUtility : gmap State float;
  policy : gmap State (option Action)
}.

(** [self.valueUtility = v] *)
Definition set_valueUtility (v : gmap State float) (self : Agent) : Agent :=
  {| environment := environment self;
     discountFactor := discountFactor self;
     maximumErrorRate := maximumErrorRate self;
     valueUtility := v;
     policy := policy self |}.

(** [self.policy = p] *)
Definition set_policy (p : gmap State (option Action)) (self : Agent) : Agent :=
  {| environment := environment self;
     discountFactor := discountFactor self;
     maximumErrorRate := maximumErrorRate self;
     valueUtility := valueUtility self;
     policy := p |}.

(** Lines 91-93: the inner loop over [stateSet] for one action. *)
Definition expected_action_utility (self : Agent) (state : State) (action : Action)
  : result float :=
  py_for (stateSet (environment self))
    (λ expected_action_utility next_state,
       p ← py_getitem (transition (environment self) state action) next_state;
       v ← py_getitem (valueUtility self) next_state;
       Ok (expected_action_utility + p * v)%float)
    0%float.

(** Lines 81-98. *)
Definition actionMaximumExpectedUtility (self : Agent) (state : State)
  : result (option Action * float) :=
  py_for (actionSet (environment self))
    (λ '(best_action, best_action_utility) action,
       eau ← expected_action_utility self state action;
       if py_gt eau best_action_utility
       then Ok (Some action, eau)
       else Ok (best_action, best_action_utility))
    (None, neg_infinity).

(** Lines 101-106. *)
Definition getAction (self : Agent) (state : State) : result (option Action) :=
  '(action, action_meu) ← actionMaximumExpectedUtility self state;
  Ok action.

(** Lines 50-64: the body of the loop over the states of one sweep.  The
    accumulator is the pair of locals [next_value_utility] and
    [maximum_change_utility]; [self] is only read. *)
Definition sweep_body (self : Agent) (acc : gmap State float * float) (state : State)
  : result (gmap State float * float) :=
  let '(next_value_utility, maximum_change_utility) := acc in
  if bool_decide (state ∈ finalStateSet (environment self)) then
    Ok (<[state := reward (environment self) state]> next_value_utility,
        maximum_change_utility)
  else
    '(action, action_meu) ← actionMaximumExpectedUtility self state;
    let next_value_utility :=
      <[state := (reward (environment self) state
                  + discountFactor self * action_meu)%float]> next_value_utility in
    old ← py_getitem (valueUtility self) state;
    new ← py_getitem next_value_utility state;
    let delta := abs (old - new)%float in
    if py_gt delta maximum_change_utility
    then Ok (next_value_utility, delta)
    else Ok (next_value_utility, maximum_change_utility).

(** Lines 45-64: one sweep, from the empty [next_value_utility] and a
    [maximum_change_utility] of [0.]. *)
Definition sweep (self : Agent) : result (gmap State float * float) :=
  py_for (stateSet (environment self)) (sweep_body self) (∅, 0%float).

(** The right-hand side of the loop test on line 43. *)
Definition stopping_bound (self : Agent) : result float :=
  py_truediv (maximumErrorRate self * (1 - discountFactor self))%float
             (discountFactor self).

(** Lines 43-72: the [while] loop.  One unit of fuel is spent on each
    evaluation of the loop test; [None] means the fuel ran out.  [out] is
    what has been written on the console so far. *)
Fixpoint while_loop (fuel : nat) (self : Agent) (maximum_change_utility : float)
    (iteration : nat) (out : list event)
  : option (result (Agent * nat * list event)) :=
  match fuel with
  | O => None
  | S fuel' =>
    match stopping_bound self with
    | Raise e => Some (Raise e)
    | Ok bound =>
      if py_gt maximum_change_utility bound then
        match sweep self with
        | Raise e => Some (Raise e)
        | Ok (next_value_utility, maximum_change_utility') =>
          let self' := set_valueUtility next_value_utility self in
          while_loop fuel' self' maximum_change_utility' (S iteration)
            (out ++ [DisplayValueFunction (valueUtility self') iteration;
                     Print iteration maximum_change_utility'])
        end
      else Some (Ok (self, iteration, out))
    end
  end.

(** Line 35: [{state:0. for state in self.environment.stateSet}] *)
Definition zero_valueUtility (environment : Environment) : gmap State float :=
  foldl (λ d state, <[state := 0%float]> d) ∅ (stateSet environment).

(** Lines 75-78. *)
Definition build_policy (self : Agent) : result (gmap State (option Action)) :=
  py_for (stateSet (environment self))
    (λ policy state,
       '(action, action_meu) ← actionMaximumExpectedUtility self state;
       Ok (<[state := action]> policy))
    ∅.

(** Lines 30-35: the attributes set before the loop.  [policy] does not
    exist yet at this point and nothing reads it before line 75; it is
    shown as the empty dictionary. *)
Definition initial_self (environment : Environment)
    (discount_factor maximum_error_rate : float) : Agent :=
  {| environment := environment;
     discountFactor := discount_factor;
     maximumErrorRate := maximum_error_rate;
     valueUtility := zero_valueUtility environment;
     policy := ∅ |}.

(** Lines 28-78: the constructor; it returns the object and the console
    output.  Line 37 starts [maximum_change_utility] at [float("inf")]. *)
Definition __init__ (fuel : nat) (environment : Environment)
    (discount_factor maximum_error_rate : float)
  : option (result (Agent * list event)) :=
  let self := initial_self environment discount_factor maximum_error_rate in
  match while_loop fuel self infinity 0 [] with
  | None => None
  | Some (Raise e) => Some (Raise e)
  | Some (Ok (self, iteration, out)) =>
    Some (policy ← build_policy self; Ok (set_policy policy self, out))
  end.

(** ** Notions used to state the properties *)

(** The value of [state] in the sweep that follows [self.valueUtility], as
    the update rule is usually written: the reward for a final state, the
    reward plus the discounted best expected utility otherwise. *)
Definition bellman_backup (self : Agent) (state : State) : result float :=
  if bool_decide (state ∈ finalStateSet (environment self)) then
    Ok (reward (environment self) state)
  else
    '(action, action_meu) ← actionMaximumExpectedUtility self state;
    Ok (reward (environment self) state + discountFactor self * action_meu)%float.

(** The sum of [T[s'] * V[s']] over [states], added from left to right
    from [0.] as the inner loop does. *)
Definition weighted_sum (T V : gmap State float) (states : list State) : float :=
  foldl (λ acc s', acc + default 0 (T !! s') * default 0 (V !! s'))%float
        0%float states.

(** Every state of the environment has an entry in the dictionary. *)
Definition covers (environment : Environment) {V : Type} (d : gmap State V) : Prop :=
  ∀ s, s ∈ stateSet environment → is_Some (d !! s).

(** Every mapping the solver asks for has an entry for every state. *)
Definition total_transitions (environment : Environment) : Prop :=
  ∀ s a, s ∈ stateSet environment → a ∈ actionSet environment →
         covers environment (transition environment s a).

(** The object and the [maximum_change_utility] after [n] more sweeps. *)
Fixpoint after_sweeps (n : nat) (self : Agent) (maximum_change_utility : float)
  : result (Agent * float) :=
  match n with
  | O => Ok (self, maximum_change_utility)
  | S n' =>
    '(next_value_utility, maximum_change_utility') ← sweep self;
    after_sweeps n' (set_valueUtility next_value_utility self) maximum_change_utility'
  end.

(** [change] is the greatest of the [|V(s) - V'(s)|] over the states of
    [stateSet] that are not final, where [V] is [self.valueUtility] and [V']
    is [next]; it is [0.] when there is none.  A difference that is not a
    number (infinite values of the same sign) takes no part. *)
Definition is_maximum_change (self : Agent) (next : gmap State float) (change : float)
  : Prop :=
  is_nan change = false
  ∧ (change = 0%float
     ∨ ∃ s old new,
         s ∈ stateSet (environment self)
         ∧ (s ∉ finalStateSet (environment self))
         ∧ valueUtility self !! s = Some old
         ∧ next !! s = Some new
         ∧ change = abs (old - new)%float)
  ∧ ∀ s, s ∈ stateSet (environment self) →
         s ∉ finalStateSet (environment self) →
         ∃ old new,
           valueUtility self !! s = Some old
           ∧ next !! s = Some new
           ∧ (is_nan (abs (old - new)%float) = true
              ∨ (abs (old - new) <=? change)%float = true).

(** What the rounds of a sweep keep true: the states seen so far hold their
    backup from [self.valueUtility], the others have no entry yet, and the
    running maximum is the greatest change among the states seen. *)
Definition sweep_invariant (self : Agent) (seen : list State) (acc : gmap State float * float)
  : Prop :=
  let V := valueUtility self in
  let final := finalStateSet (environment self) in
  (∀ s, s ∈ seen →
        ∃ v, bellman_backup self s = Ok v ∧ acc.1 !! s = Some v
             ∧ (s ∉ final → is_Some (V !! s)))
  ∧ (∀ s, s ∉ seen → acc.1 !! s = None)
  ∧ is_nan acc.2 = false
  ∧ (acc.2 = 0%float
     ∨ ∃ s old new, s ∈ seen ∧ (s ∉ final) ∧ V !! s = Some old
                    ∧ bellman_backup self s = Ok new
                    ∧ acc.2 = abs (old - new)%float)
  ∧ (∀ s, s ∈ seen → s ∉ final →
          ∃ old new, V !! s = Some old ∧ bellman_backup self s = Ok new
                     ∧ (is_nan (abs (old - new)%float) = true
                        ∨ (abs (old - new) <=? acc.2)%float = true)).

(** What the rounds of the best-action loop keep true, [seen] being the
    actions tried so far: with no best action yet, the best utility is still
    [-inf] and no action tried is above it; otherwise the best utility is that
    of the best action, the actions tried before it are below it (or have a
    NaN utility) and the actions tried after it are not above it. *)
Definition best_invariant (self : Agent) (state : State) (seen : list Action)
    (acc : option Action * float) : Prop :=
  match acc.1 with
  | None =>
    acc.2 = neg_infinity
    ∧ ∀ a', a' ∈ seen →
            ∃ u', expected_action_utility self state a' = Ok u'
                  ∧ py_gt u' neg_infinity = false
  | Some a =>
    expected_action_utility self state a = Ok acc.2
    ∧ (neg_infinity <? acc.2)%float = true
    ∧ ∃ l1 l2,
        seen = l1 ++ a :: l2
        ∧ (∀ a', a' ∈ l1 →
                 ∃ u', expected_action_utility self state a' = Ok u'
                       ∧ (is_nan u' = true ∨ (u' <? acc.2)%float = true))
        ∧ (∀ a', a' ∈ l2 →
                 ∃ u', expected_action_utility self state a' = Ok u'
                       ∧ py_gt u' acc.2 = false)
  end.

(** [self] on an environment that differs by its [transition] method only. *)
Definition with_transition (T : State → Action → gmap State float) (self : Agent)
  : Agent :=
  {| environment :=
       {| stateSet := stateSet (environment self);
          actionSet := actionSet (environment self);
          finalStateSet := finalStateSet (environment self);
          reward := reward (environment self);
          transition := T |};
     discountFactor := discountFactor self;
     maximumErrorRate := maximumErrorRate self;
     valueUtility := valueUtility self;
     policy := policy self |}.

End Agent.

Arguments Environment State Action {EqDecision0 H}.
Arguments Agent State Action {EqDecision0 H}.
Arguments event State {EqDecision0 H}.

(** ** The scenarios of the specification *)

(** Scenario A.  Two states, [s1] final with reward 10, [s0] not final with
    reward 0, one action that leads from [s0] to [s1] with probability 1.  The
    mapping has an entry for each state. *)
Definition chain_mapping : gmap string float :=
  <["s0" := 0%float]> (<["s1" := 1%float]> ∅).

Definition chain : Environment string string := {|
  stateSet := ["s0"; "s1"];
  actionSet := ["go"];
  finalStateSet := {["s1"]};
  reward := λ s, if String.eqb s "s1" then 10%float else 0%float;
  transition := λ _ _, chain_mapping
|}.

(** The same chain with a mapping that leaves out the state of probability 0. *)
Definition sparse_chain : Environment string string := {|
  stateSet := stateSet chain;
  actionSet := actionSet chain;
  finalStateSet := finalStateSet chain;
  reward := reward chain;
  transition := λ _ _, <["s1" := 1%float]> ∅
|}.

(** Scenario C.  The probabilities of the only mapping add up to 0.5. *)
Definition halved_chain : Environment string string := {|
  stateSet := stateSet chain;
  actionSet := actionSet chain;
  finalStateSet := finalStateSet chain;
  reward := reward chain;
  transition := λ _ _, <["s0" := 0%float]> (<["s1" := 0.5%float]> ∅)
|}.

(** Scenario D.  The chain without any action. *)
Definition stuck_chain : Environment string string := {|
  stateSet := stateSet chain;
  actionSet := [];
  finalStateSet := finalStateSet chain;
  reward := reward chain;
  transition := transition chain
|}.

(** The chain whose final state [s1] has an empty mapping. *)
Definition open_chain : Environment string string := {|
  stateSet := stateSet chain;
  actionSet := actionSet chain;
  finalStateSet := finalStateSet chain;
  reward := reward chain;
  transition := λ s _, if String.eqb s "s1" then ∅ else chain_mapping
|}.

(** The chain with two actions: [left] stays in [s0], [right] leads to
    [s1]. *)
Definition fork : Environment string string := {|
  stateSet := stateSet chain;
  actionSet := ["left"; "right"];
  finalStateSet := finalStateSet chain;
  reward := reward chain;
  transition := λ _ a,
    if String.eqb a "right" then chain_mapping
    else <["s0" := 1%float]> (<["s1" := 0%float]> ∅)
|}.

(** An object on [fork] whose value function gives 10 to [s1]. *)
Definition fork_self : Agent string string :=
  set_valueUtility (<["s0" := 0%float]> (<["s1" := 10%float]> ∅))
                   (initial_self fork 0.9 0.01).

(** The object and the console output of a constructor call that returned. *)
Definition solved (r : option (result (Agent string string * list (event string))))
  : Agent string string :=
  match r with
  | Some (Ok (self, _)) => self
  | _ => initial_self chain 0 0
  end.

Definition console (r : option (result (Agent string string * list (event string))))
  : list (event string) :=
  match r with
  | Some (Ok (_, out)) => out
  | _ => []
  end.

(** ** The binary64 format *)

(** The least exponent of a binary64 number, -1074. *)
Definition emin64 : Z := SpecFloat.emin prec emax.

(** A number with a positive sign: [+0.], a positive finite number or
    [+inf]. *)
Definition plus_signed (x : spec_float) : Prop :=
  x = S754_zero false ∨ (∃ m e, x = S754_finite false m e) ∨ x = S754_infinity false.

(** ** Tactics for the case analyses on [spec_float] *)

Ltac sf_cases x := destruct x as [[]|[]| |[] ? ?].

Ltac cmp_cases :=
  repeat match goal with
  | |- context [Pos.compare_cont Eq ?a ?b] =>
      change (Pos.compare_cont Eq a b) with (a ?= b)%positive
  | H : context [Pos.compare_cont Eq ?a ?b] |- _ =>
      change (Pos.compare_cont Eq a b) with (a ?= b)%positive in H
  end;
  repeat match goal with
  | |- context [(?a ?= ?b)%Z] => destruct (Z.compare_spec a b)
  | H : context [(?a ?= ?b)%Z] |- _ => destruct (Z.compare_spec a b)
  | |- context [(?a ?= ?b)%positive] => destruct (Pos.compare_spec a b)
  | H : context [(?a ?= ?b)%positive] |- _ => destruct (Pos.compare_spec a b)
  end; simpl in *; try congruence; try lia.

(** * Facts about binary64 numbers

    The comparisons and the rounded operations, through their specification
    on [spec_float]. *)

Lemma SFcompare_refl x : x ≠ S754_nan → SFcompare x x = Some Eq.
Proof. sf_cases x; simpl; try done; intros _; cmp_cases. Qed.

Lemma SFcompare_None x y : SFcompare x y = None → x = S754_nan ∨ y = S754_nan.
Proof. sf_cases x; sf_cases y; simpl; intros; try discriminate; auto. Qed.

Lemma SFcompare_antisym x y c :
  SFcompare x y = Some c → SFcompare y x = Some (CompOpp c).
Proof.
  sf_cases x; sf_cases y; simpl; try discriminate; intros [= <-];
    try reflexivity; cmp_cases.
Qed.

Lemma SFleb_SFltb_trans x y z :
  SFleb x y = true → SFltb y z = true → SFltb x z = true.
Proof.
  unfold SFleb, SFltb.
  sf_cases x; sf_cases y; simpl; try discriminate;
    sf_cases z; simpl; try discriminate; try reflexivity;
    intros; cmp_cases.
Qed.

Lemma SFltb_SFleb x y : SFltb x y = true → SFleb x y = true.
Proof. unfold SFleb, SFltb. destruct (SFcompare x y) as [[]|]; done. Qed.

Lemma is_nan_true x : is_nan x = true ↔ Prim2SF x = S754_nan.
Proof.
  unfold is_nan. rewrite FloatAxioms.eqb_spec. unfold SFeqb. split.
  - intros Hn. destruct (Prim2SF x) eqn:E; try done;
      rewrite SFcompare_refl in Hn; done.
  - intros ->. done.
Qed.

Lemma is_nan_false x : is_nan x = false ↔ Prim2SF x ≠ S754_nan.
Proof. rewrite <- is_nan_true. destruct (is_nan x); split; congruence. Qed.

Lemma ltb_not_nan x y :
  (x <? y)%float = true → is_nan x = false ∧ is_nan y = false.
Proof.
  rewrite FloatAxioms.ltb_spec, !is_nan_false. unfold SFltb.
  destruct (SFcompare (Prim2SF x) (Prim2SF y)) eqn:E; [|done]. intros _.
  split; intros Hn; rewrite Hn in E; [|destruct (Prim2SF x)]; done.
Qed.

Lemma leb_refl x : is_nan x = false → (x <=? x)%float = true.
Proof.
  rewrite is_nan_false, FloatAxioms.leb_spec. intros Hn.
  unfold SFleb. by rewrite SFcompare_refl.
Qed.

Lemma not_ltb_leb x y :
  is_nan x = false → is_nan y = false →
  (x <? y)%float = false → (y <=? x)%float = true.
Proof.
  rewrite !is_nan_false, FloatAxioms.ltb_spec, FloatAxioms.leb_spec.
  unfold SFltb, SFleb. intros Hx Hy.
  destruct (SFcompare (Prim2SF x) (Prim2SF y)) as [c|] eqn:E.
  - rewrite (SFcompare_antisym _ _ _ E). by destruct c.
  - by destruct (SFcompare_None _ _ E).
Qed.

Lemma leb_not_ltb x y : (y <=? x)%float = true → (x <? y)%float = false.
Proof.
  rewrite FloatAxioms.ltb_spec, FloatAxioms.leb_spec. unfold SFltb, SFleb.
  destruct (SFcompare (Prim2SF y) (Prim2SF x)) as [c|] eqn:E; [|done].
  apply SFcompare_antisym in E. rewrite E. by destruct c.
Qed.

Lemma leb_ltb_trans x y z :
  (x <=? y)%float = true → (y <? z)%float = true → (x <=? z)%float = true.
Proof.
  rewrite !FloatAxioms.leb_spec, FloatAxioms.ltb_spec. intros.
  apply SFltb_SFleb. by eapply SFleb_SFltb_trans.
Qed.

(** Rounding a mantissa that is not negative never gives a NaN. *)

Lemma iter_pos_preserves {A} (P : A → Prop) (f : A → A) :
  (∀ x, P x → P (f x)) → ∀ p x, P x → P (SpecFloat.iter_pos f p x).
Proof. intros Hf p. induction p; simpl; auto. Qed.

Lemma shr_1_nonneg mrs : (0 ≤ shr_m mrs)%Z → (0 ≤ shr_m (shr_1 mrs))%Z.
Proof. destruct mrs as [[|[]|[]] r s]; simpl; lia. Qed.

Lemma shr_nonneg mrs e n : (0 ≤ shr_m mrs)%Z → (0 ≤ shr_m (shr mrs e n).1)%Z.
Proof.
  intros Hm. destruct n; simpl; try done.
  by apply (iter_pos_preserves (λ r, (0 ≤ shr_m r)%Z)); [apply shr_1_nonneg|].
Qed.

Lemma shr_fexp_nonneg m e l :
  (0 ≤ m)%Z → (0 ≤ shr_m (shr_fexp prec emax m e l).1)%Z.
Proof.
  intros Hm. unfold shr_fexp. apply shr_nonneg.
  destruct l as [|[]]; simpl; done.
Qed.

Lemma round_nearest_even_nonneg m l :
  (0 ≤ m)%Z → (0 ≤ round_nearest_even m l)%Z.
Proof.
  intros. destruct l as [|[]]; simpl; try done; [destruct (Z.even m)|]; lia.
Qed.

Lemma binary_round_aux_not_nan s m e l :
  (0 ≤ m)%Z → binary_round_aux prec emax s m e l ≠ S754_nan.
Proof.
  intros Hm. unfold binary_round_aux.
  pose proof (shr_fexp_nonneg m e l Hm) as H1.
  destruct (shr_fexp prec emax m e l) as [mrs' e']. simpl in H1.
  pose proof (shr_fexp_nonneg _ e' loc_Exact
                (round_nearest_even_nonneg _ (loc_of_shr_record mrs') H1)) as H2.
  destruct (shr_fexp prec emax _ e' loc_Exact) as [mrs'' e'']. simpl in H2.
  destruct (shr_m mrs''); [done| |lia].
  by destruct (e'' <=? emax - prec)%Z.
Qed.

Lemma SFdiv_core_binary_nonneg m1 e1 m2 e2 :
  (0 ≤ (SFdiv_core_binary prec emax (Zpos m1) e1 (Zpos m2) e2).1.1)%Z.
Proof.
  unfold SFdiv_core_binary.
  set (s := (e1 - e2 - _)%Z).
  set (m' := match s with Z0 => _ | Zpos _ => _ | Zneg _ => _ end).
  assert (0 ≤ m')%Z as Hm'.
  { subst m'. destruct s; try lia. apply Z.shiftl_nonneg. lia. }
  pose proof (Z_div_mod m' (Zpos m2) eq_refl) as Hd.
  destruct (Z.div_eucl m' (Zpos m2)) as [q r]. simpl. nia.
Qed.

(** Rounding a positive mantissa at an exponent in range gives a number
    that is neither a zero nor a NaN. *)

Lemma digits2_pos_size m : digits2_pos m = Pos.size m.
Proof. induction m; simpl; congruence. Qed.

Lemma size_bounds m : (2 ^ (Zpos (Pos.size m) - 1) ≤ Zpos m < 2 ^ Zpos (Pos.size m))%Z.
Proof.
  pose proof (Pos.size_le m) as Hle. pose proof (Pos.size_gt m) as Hgt.
  apply Pos2Z.pos_le_pos in Hle. apply Pos2Z.pos_lt_pos in Hgt.
  rewrite Pos2Z.inj_pow in Hle, Hgt.
  split; [|done].
  assert (2 ^ Zpos (Pos.size m) = 2 * 2 ^ (Zpos (Pos.size m) - 1))%Z as E.
  { rewrite <- Z.pow_succ_r by lia. f_equal. lia. }
  lia.
Qed.

Lemma shr_1_m r : (0 ≤ shr_m r)%Z → shr_m (shr_1 r) = (shr_m r / 2)%Z.
Proof.
  destruct r as [[|[p|p|]|p] b s]; cbn [shr_1 shr_m]; intros Hm; try lia.
  - done.
  - apply Z.div_unique with 1%Z; lia.
  - apply Z.div_unique with 0%Z; lia.
  - done.
Qed.

Lemma iter_shr_1_m p : ∀ r,
  (0 ≤ shr_m r)%Z → shr_m (SpecFloat.iter_pos shr_1 p r) = (shr_m r / 2 ^ Zpos p)%Z.
Proof.
  assert (∀ q r, (0 ≤ shr_m r)%Z → (0 ≤ shr_m (SpecFloat.iter_pos shr_1 q r))%Z) as Hnn.
  { intros q r. apply (iter_pos_preserves (λ r, (0 ≤ shr_m r)%Z)), shr_1_nonneg. }
  induction p as [p IH|p IH|]; intros r Hr; simpl.
  - pose proof (Z.pow_pos_nonneg 2 (Zpos p) ltac:(lia) ltac:(lia)) as Hpos.
    rewrite IH, IH, shr_1_m by auto using shr_1_nonneg.
    rewrite !Z.div_div by lia. f_equal.
    replace (Zpos p~1) with (Z.succ (Zpos p + Zpos p)) by lia.
    rewrite Z.pow_succ_r, Z.pow_add_r by lia. lia.
  - pose proof (Z.pow_pos_nonneg 2 (Zpos p) ltac:(lia) ltac:(lia)) as Hpos.
    rewrite IH, IH by auto. rewrite Z.div_div by lia. f_equal.
    replace (Zpos p~0) with (Zpos p + Zpos p)%Z by lia.
    by rewrite Z.pow_add_r by lia.
  - by rewrite shr_1_m.
Qed.

(** Shifting a positive mantissa to its format keeps it positive, at an
    exponent that is still in range. *)
Lemma shr_fexp_pos m e l :
  (emin64 ≤ e)%Z →
  ∃ m', shr_m (shr_fexp prec emax (Zpos m) e l).1 = Zpos m'
        ∧ (emin64 ≤ (shr_fexp prec emax (Zpos m) e l).2)%Z.
Proof.
  intros He. unfold shr_fexp, shr. cbn [Zdigits2]. rewrite digits2_pos_size.
  assert (shr_m (shr_record_of_loc (Zpos m) l) = Zpos m) as Hm
    by by destruct l as [|[]].
  destruct (fexp prec emax (Zpos (Pos.size m) + e) - e)%Z as [|n|n] eqn:En;
    cbn [fst snd]; [by exists m| |by exists m].
  assert (Zpos n = Zpos (Pos.size m) - 53)%Z as Hn.
  { unfold fexp in En. change (SpecFloat.emin prec emax) with emin64 in En.
    change prec with 53%Z in En. lia. }
  rewrite iter_shr_1_m, Hm by (rewrite Hm; lia).
  pose proof (size_bounds m) as [Hlow _].
  pose proof (Z.pow_pos_nonneg 2 (Zpos n) ltac:(lia) ltac:(lia)) as Hpos.
  assert (2 ^ Zpos n ≤ Zpos m)%Z as Hle.
  { etrans; [|exact Hlow]. apply Z.pow_le_mono_r; lia. }
  pose proof (Z.div_le_mono _ _ (2 ^ Zpos n) Hpos Hle) as Hd.
  rewrite Z.div_same in Hd by lia.
  destruct (Zpos m / 2 ^ Zpos n)%Z as [|q|q]; [lia| |lia].
  exists q. split; [done|lia].
Qed.

Lemma binary_round_aux_pos s m e l :
  (emin64 ≤ e)%Z →
  (∃ m' e', binary_round_aux prec emax s (Zpos m) e l = S754_finite s m' e')
  ∨ binary_round_aux prec emax s (Zpos m) e l = S754_infinity s.
Proof.
  intros He. unfold binary_round_aux.
  destruct (shr_fexp_pos m e l He) as (m1 & Hm1 & He1).
  destruct (shr_fexp prec emax (Zpos m) e l) as [mrs' e']. cbn [fst snd] in *.
  assert (∃ m2, round_nearest_even (shr_m mrs') (loc_of_shr_record mrs') = Zpos m2)
    as [m2 ->].
  { rewrite Hm1. unfold round_nearest_even.
    destruct (loc_of_shr_record mrs') as [|[]]; eauto.
    destruct (Z.even (Zpos m1)); eauto. }
  destruct (shr_fexp_pos m2 e' loc_Exact He1) as (m3 & Hm3 & _).
  destruct (shr_fexp prec emax (Zpos m2) e' loc_Exact) as [mrs'' e'']. cbn [fst] in *.
  rewrite Hm3. destruct (e'' <=? emax - prec)%Z; eauto.
Qed.

Lemma binary_round_pos s m e :
  (emin64 ≤ e)%Z →
  (∃ m' e', binary_round prec emax s m e = S754_finite s m' e')
  ∨ binary_round prec emax s m e = S754_infinity s.
Proof.
  intros He. unfold binary_round.
  destruct (shl_align m e _) as [mz ez] eqn:Ea.
  apply binary_round_aux_pos.
  unfold shl_align in Ea.
  destruct (fexp prec emax (Zpos (digits2_pos m) + e) - e)%Z eqn:Ef;
    injection Ea as <- <-; try done.
  unfold fexp. change (SpecFloat.emin prec emax) with emin64. lia.
Qed.

Lemma valid_finite_bounds s m e :
  valid_binary (S754_finite s m e) = true →
  (Zpos (Pos.size m) ≤ 53 ∧ emin64 ≤ e)%Z.
Proof.
  unfold SpecFloat.valid_binary, bounded, canonical_mantissa, fexp.
  rewrite digits2_pos_size. change (SpecFloat.emin prec emax) with emin64.
  change prec with 53%Z.
  intros [Hc _]%andb_prop. apply Z.eqb_eq in Hc. lia.
Qed.

(** [1. - x] for a finite [x] below 1: a positive number. *)
Lemma one_minus_pos m e :
  valid_binary (S754_finite false m e) = true →
  SFltb (S754_finite false m e) (Prim2SF 1) = true →
  (∃ m' e', SF64sub (Prim2SF 1) (S754_finite false m e) = S754_finite false m' e')
  ∨ SF64sub (Prim2SF 1) (S754_finite false m e) = S754_infinity false.
Proof.
  intros [Hsize Hemin]%valid_finite_bounds Hlt.
  change (Prim2SF 1) with (S754_finite false 4503599627370496 (-52)) in *.
  assert (e < -52 ∨ e = -52 ∧ Zpos m < 4503599627370496)%Z as Hcases.
  { unfold SFltb, SFcompare in Hlt.
    destruct (Z.compare_spec e (-52)) as [->| |]; [right|by left|done].
    split; [done|].
    by destruct (Pos.compare_cont Eq m 4503599627370496) eqn:Ec. }
  clear Hlt.
  unfold SF64sub, SFsub. cbn [cond_Zopp].
  rewrite (Z.min_r (-52) e) by lia.
  assert (∃ z, (Zpos (shl_align 4503599627370496 (-52) e).1
                - Zpos (shl_align m e e).1)%Z = Zpos z) as [z ->].
  { unfold shl_align. rewrite Z.sub_diag. cbn [fst].
    destruct (e - -52)%Z as [|d|d] eqn:Ed; cbn [fst].
    - destruct (4503599627370496 - Zpos m)%Z eqn:E; [lia|eauto|lia].
    - lia.
    - pose proof (shift_pos_correct d 4503599627370496) as Hshift.
      unfold shift_pos in Hshift.
      pose proof (size_bounds m) as [_ Hup].
      assert (2 ^ Zpos (Pos.size m) ≤ 2 ^ 53)%Z as H53
        by (apply Z.pow_le_mono_r; lia).
      assert (2 ≤ Zpower_pos 2 d)%Z as H2.
      { change (Zpower_pos 2 d) with (2 ^ Zpos d)%Z.
        change 2%Z with (2 ^ 1)%Z at 1. apply Z.pow_le_mono_r; lia. }
      change (2 ^ 53)%Z with 9007199254740992%Z in H53.
      destruct (Zpos (Pos.iter xO 4503599627370496%positive d) - Zpos m)%Z eqn:E;
        [nia|eauto|nia]. }
  cbn [binary_normalize]. by apply binary_round_pos.
Qed.

Lemma SFdiv_not_nan x m2 e2 :
  x ≠ S754_nan → SF64div x (S754_finite false m2 e2) ≠ S754_nan.
Proof.
  intros Hx. destruct x as [[]|[]| |[] mx ex]; try done.
  all: unfold SF64div, SFdiv;
    pose proof (SFdiv_core_binary_nonneg mx ex m2 e2) as Hq;
    destruct (SFdiv_core_binary _ _ _ _ _ _) as [[q e'] l];
    by apply binary_round_aux_not_nan.
Qed.

(** A positive number is finite or the positive infinity. *)
Lemma pos_cases x :
  (0 <? x)%float = true →
  (∃ m e, Prim2SF x = S754_finite false m e) ∨ Prim2SF x = S754_infinity false.
Proof.
  rewrite FloatAxioms.ltb_spec. unfold SFltb.
  change (Prim2SF 0) with (S754_zero false).
  sf_cases (Prim2SF x); simpl; try discriminate; eauto.
Qed.

(** A positive number below 1 is finite. *)
Lemma pos_below_one x :
  (0 <? x)%float = true → (x <? 1)%float = true →
  ∃ m e, Prim2SF x = S754_finite false m e.
Proof.
  intros [?|Hinf]%pos_cases; [done|].
  rewrite FloatAxioms.ltb_spec, Hinf. discriminate.
Qed.

(** For a discount factor in (0, 1) and a positive error rate, the division
    of line 43 has a divisor other than zero and its quotient is a number. *)
Lemma bound_is_a_number (γ ε : float) :
  (0 <? γ)%float = true → (γ <? 1)%float = true →
  (0 <? ε)%float = true →
  (γ =? 0)%float = false ∧ is_nan (ε * (1 - γ) / γ)%float = false.
Proof.
  intros Hγ0 Hγ1 Hε0.
  destruct (pos_below_one γ Hγ0 Hγ1) as (mγ & eγ & Eγ).
  split.
  - rewrite FloatAxioms.eqb_spec, Eγ. done.
  - rewrite is_nan_false, div_spec, mul_spec, sub_spec, Eγ.
    apply SFdiv_not_nan.
    pose proof (Prim2SF_valid γ) as Hvalid. rewrite Eγ in Hvalid.
    rewrite FloatAxioms.ltb_spec, Eγ in Hγ1.
    destruct (one_minus_pos mγ eγ Hvalid Hγ1) as [(m1 & e1 & ->)| ->],
             (pos_cases ε Hε0) as [(mε & eε & ->)| ->]; try done.
    by apply binary_round_aux_not_nan.
Qed.

(** With a discount factor of 1 and a finite error rate the quotient is a
    zero, below [float("inf")]. *)
Lemma bound_at_one (ε : float) :
  is_finite ε = true → (ε * (1 - 1) / 1 <? infinity)%float = true.
Proof.
  unfold is_finite, is_infinity. intros Hf.
  apply negb_true_iff, orb_false_iff in Hf as [Hn Hi].
  apply is_nan_false in Hn.
  rewrite FloatAxioms.eqb_spec, abs_spec in Hi.
  rewrite FloatAxioms.ltb_spec, div_spec, mul_spec.
  change (Prim2SF (1 - 1)) with (S754_zero false).
  change (Prim2SF 1) with (S754_finite false 4503599627370496 (-52)).
  change (Prim2SF infinity) with (S754_infinity false) in *.
  sf_cases (Prim2SF ε); done.
Qed.

(** * Facts about the loops *)

Lemma bind_Ok {A B} (f : A → result B) (a : A) : (Ok a ≫= f) = f a.
Proof. reflexivity. Qed.

Lemma bind_Raise {A B} (f : A → result B) (e : exn) : (Raise e ≫= f) = Raise e.
Proof. reflexivity. Qed.

Lemma py_getitem_Ok {K V : Type} `{Countable K} (d : gmap K V) (k : K) (v : V) :
  py_getitem d k = Ok v ↔ d !! k = Some v.
Proof. unfold py_getitem. destruct (d !! k); split; congruence. Qed.

Lemma py_getitem_Raise {K V : Type} `{Countable K} (d : gmap K V) (k : K) (e : exn) :
  py_getitem d k = Raise e ↔ d !! k = None ∧ e = KeyError.
Proof.
  unfold py_getitem. destruct (d !! k); split.
  - discriminate.
  - by intros [? _].
  - by intros [= <-].
  - by intros [_ ->].
Qed.

(** A loop that returns keeps an invariant that each round keeps. *)
Lemma py_for_invariant {A B} (body : B → A → result B) (I : list A → B → Prop)
    (l : list A) (acc r : B) :
  I [] acc →
  (∀ seen x acc acc',
     I seen acc → x ∈ l → body acc x = Ok acc' → I (seen ++ [x]) acc') →
  py_for l body acc = Ok r →
  I l r.
Proof.
  intros H0 Hstep.
  assert (∀ rest seen acc0,
             seen ++ rest = l → I seen acc0 → py_for rest body acc0 = Ok r → I l r)
    as Hgen.
  { induction rest as [|x rest IH]; intros seen acc0 Hl HI Hr; simpl in Hr.
    - rewrite app_nil_r in Hl. subst. by injection Hr as <-.
    - destruct (body acc0 x) as [acc'|e] eqn:E; [|done].
      rewrite bind_Ok in Hr.
      apply (IH (seen ++ [x]) acc'); [by rewrite <- app_assoc| |done].
      eapply Hstep; eauto. subst l. set_solver. }
  intros Hr. by apply (Hgen l [] acc).
Qed.

(** A loop whose rounds all return, under an invariant, returns. *)
Lemma py_for_returns {A B} (body : B → A → result B) (I : B → Prop)
    (l : list A) (acc : B) :
  I acc →
  (∀ x acc, x ∈ l → I acc → ∃ acc', body acc x = Ok acc' ∧ I acc') →
  ∃ r, py_for l body acc = Ok r ∧ I r.
Proof.
  revert acc. induction l as [|x l IH]; intros acc HI Hstep; simpl.
  - eauto.
  - destruct (Hstep x acc) as (acc' & -> & HI'); [set_solver|done|].
    rewrite bind_Ok. apply IH; [done|].
    intros y acc0 Hy. apply Hstep. set_solver.
Qed.

(** An exception of the loop is an exception of one of its rounds. *)
Lemma py_for_raises {A B} (body : B → A → result B) (l : list A) (acc : B) (e : exn) :
  py_for l body acc = Raise e →
  ∃ x acc0, x ∈ l ∧ body acc0 x = Raise e.
Proof.
  revert acc. induction l as [|x l IH]; intros acc Hr; simpl in Hr; [done|].
  destruct (body acc x) as [acc'|e'] eqn:E.
  - rewrite bind_Ok in Hr. destruct (IH _ Hr) as (y & acc0 & Hy & Hb).
    exists y, acc0. split; [set_solver|done].
  - rewrite bind_Raise in Hr. injection Hr as ->.
    exists x, acc. split; [set_solver|done].
Qed.

Section AgentFacts.
Context {State Action : Type} `{Countable State}.
Implicit Types (self : Agent State Action) (env : Environment State Action).
Implicit Types (s state : State) (V next : gmap State float).

Lemma sweep_invariant_start self : sweep_invariant self [] (∅, 0%float).
Proof.
  unfold sweep_invariant. simpl. split_and!.
  - intros s Hs. set_solver.
  - intros s _. apply lookup_empty.
  - done.
  - by left.
  - intros s Hs. set_solver.
Qed.

Lemma sweep_invariant_step self seen x acc acc' :
  sweep_invariant self seen acc →
  sweep_body self acc x = Ok acc' →
  sweep_invariant self (seen ++ [x]) acc'.
Proof.
  destruct acc as [next mcu]. intros (I1 & I2 & I3 & I4 & I5) Hb.
  unfold sweep_body in Hb. simpl in I1, I2, I3, I4, I5.
  destruct (bool_decide (x ∈ finalStateSet (environment self))) eqn:Hfin.
  - (* a final state *)
    apply bool_decide_eq_true in Hfin. injection Hb as <-.
    assert (bellman_backup self x = Ok (reward (environment self) x)) as Hx.
    { unfold bellman_backup. by rewrite bool_decide_eq_true_2. }
    unfold sweep_invariant. simpl. split_and!.
    + intros s Hs. destruct (decide (s = x)) as [->|Hne].
      * eexists. rewrite lookup_insert_eq. split_and!; [done..|]. by intros [].
      * rewrite lookup_insert_ne by done. apply I1. set_solver.
    + intros s Hs. rewrite lookup_insert_ne by set_solver. apply I2. set_solver.
    + done.
    + destruct I4 as [->|(s & old & new & ? & ?)]; [by left|right].
      exists s, old, new. split; [set_solver|done].
    + intros s Hs Hnf. apply I5; [|done].
      apply elem_of_app in Hs as [Hs| ->%list_elem_of_singleton]; done.
  - (* a state that is not final *)
    apply bool_decide_eq_false in Hfin.
    destruct (actionMaximumExpectedUtility self x) as [[a meu]|e] eqn:Ha; [|done].
    rewrite bind_Ok in Hb.
    destruct (py_getitem (valueUtility self) x) as [old|e] eqn:Hold; [|done].
    rewrite bind_Ok in Hb. apply py_getitem_Ok in Hold.
    unfold py_getitem in Hb. rewrite lookup_insert_eq in Hb. rewrite bind_Ok in Hb.
    set (new := (reward (environment self) x + discountFactor self * meu)%float) in *.
    assert (bellman_backup self x = Ok new) as Hx.
    { unfold bellman_backup. rewrite bool_decide_eq_false_2 by done. by rewrite Ha. }
    assert (acc'.1 = <[x:=new]> next
            ∧ acc'.2 = if (mcu <? abs (old - new))%float
                       then abs (old - new)%float else mcu)
      as [Hn Hm].
    { unfold py_gt in Hb. destruct (mcu <? abs (old - new))%float; by injection Hb as <-. }
    clear Hb.
    unfold sweep_invariant. simpl. rewrite Hn, Hm. split_and!.
    + intros s Hs. destruct (decide (s = x)) as [->|Hne].
      * eexists. rewrite lookup_insert_eq. split_and!; [done..|]. eauto.
      * rewrite lookup_insert_ne by done. apply I1. set_solver.
    + intros s Hs. rewrite lookup_insert_ne by set_solver. apply I2. set_solver.
    + destruct (mcu <? abs (old - new))%float eqn:Hlt; [|done].
      by apply ltb_not_nan in Hlt as [_ ?].
    + destruct (mcu <? abs (old - new))%float eqn:Hlt.
      * right. exists x, old, new. split; [set_solver|done].
      * destruct I4 as [->|(s & o & n & ? & ?)]; [by left|right].
        exists s, o, n. split; [set_solver|done].
    + assert (is_nan (abs (old - new)) = true
              ∨ (abs (old - new)
                 <=? (if (mcu <? abs (old - new)) then abs (old - new) else mcu))%float
                = true) as Hxle.
      { destruct (mcu <? abs (old - new))%float eqn:Hlt.
        - right. apply leb_refl. by apply ltb_not_nan in Hlt as [_ ?].
        - destruct (is_nan (abs (old - new))) eqn:Hnan; [by left|right].
          by apply not_ltb_leb. }
      intros s Hs Hnf. destruct (decide (s = x)) as [->|Hne].
      * exists old, new. by split_and!.
      * destruct (I5 s) as (o & n & Ho & Hbn & Hle); [set_solver|done|].
        exists o, n. split_and!; [done..|].
        destruct Hle as [?|Hle]; [by left|right].
        destruct (mcu <? abs (old - new))%float eqn:Hlt; [|done].
        by eapply leb_ltb_trans.
Qed.

(** The outcome of the rounds of a sweep over any list of states. *)
Lemma sweep_over_spec self (l : list State) next change :
  py_for l (sweep_body self) (∅, 0%float) = Ok (next, change) →
  sweep_invariant self l (next, change).
Proof.
  apply (py_for_invariant _ (sweep_invariant self));
    [apply sweep_invariant_start|by eauto using sweep_invariant_step].
Qed.

(** The outcome of one sweep. *)
Lemma sweep_spec self next change :
  sweep self = Ok (next, change) →
  (∀ s, s ∈ stateSet (environment self) →
        ∃ v, bellman_backup self s = Ok v ∧ next !! s = Some v)
  ∧ (∀ s, s ∉ stateSet (environment self) → next !! s = None)
  ∧ is_maximum_change self next change.
Proof.
  intros (I1 & I2 & I3 & I4 & I5)%sweep_over_spec. simpl in *.
  split; [|split; [done|]].
  - intros s Hs. destruct (I1 s Hs) as (v & ? & ? & _). eauto.
  - split; [done|]. split.
    + destruct I4 as [?|(s & old & new & Hs & Hnf & Ho & Hb & ->)]; [by left|right].
      destruct (I1 s Hs) as (v & Hv & Hl & _).
      exists s, old, new. rewrite Hb in Hv. injection Hv as <-. done.
    + intros s Hs Hnf. destruct (I5 s Hs Hnf) as (old & new & Ho & Hb & Hle).
      destruct (I1 s Hs) as (v & Hv & Hl & _).
      exists old, new. rewrite Hb in Hv. injection Hv as <-. done.
Qed.

(** A round of the sweep does not read the dictionary it fills: started on
    another dictionary it stores the same value and leaves the same running
    maximum. *)
Lemma sweep_body_ignores_next self n1 n2 m x n1' m' :
  sweep_body self (n1, m) x = Ok (n1', m') →
  ∃ v, n1' = <[x := v]> n1 ∧ sweep_body self (n2, m) x = Ok (<[x := v]> n2, m').
Proof.
  unfold sweep_body.
  destruct (bool_decide (x ∈ finalStateSet (environment self))).
  - intros [= <- <-]. eauto.
  - destruct (actionMaximumExpectedUtility self x) as [[a meu]|e]; [|done].
    rewrite !bind_Ok.
    destruct (py_getitem (valueUtility self) x) as [old|e]; [|done].
    rewrite !bind_Ok. unfold py_getitem. rewrite !lookup_insert_eq, !bind_Ok.
    destruct (py_gt _ m); intros [= <- <-]; eauto.
Qed.

(** ** The inner loops *)

Lemma expected_action_utility_body_raises self state action acc x e :
  (p ← py_getitem (transition (environment self) state action) x;
   v ← py_getitem (valueUtility self) x;
   Ok (acc + p * v)%float) = Raise e →
  e = KeyError.
Proof.
  destruct (py_getitem (transition _ _ _) x) as [p|e1] eqn:E1.
  - rewrite bind_Ok.
    destruct (py_getitem (valueUtility self) x) as [v|e2] eqn:E2; [done|].
    rewrite bind_Raise. intros [= <-]. by apply py_getitem_Raise in E2 as [_ ->].
  - rewrite bind_Raise. intros [= <-]. by apply py_getitem_Raise in E1 as [_ ->].
Qed.

Lemma expected_action_utility_raises self state action e :
  expected_action_utility self state action = Raise e → e = KeyError.
Proof.
  intros (x & acc & _ & Hb)%py_for_raises.
  by eapply expected_action_utility_body_raises.
Qed.

(** When the inner loop returns, every state had an entry in the mapping and
    in the value function, and the result is the sum from left to right. *)
Lemma expected_action_utility_Ok self state action r :
  expected_action_utility self state action = Ok r →
  covers (environment self) (transition (environment self) state action)
  ∧ covers (environment self) (valueUtility self)
  ∧ r = weighted_sum (transition (environment self) state action)
                     (valueUtility self) (stateSet (environment self)).
Proof.
  intros Hr. unfold covers.
  apply (py_for_invariant _
           (λ seen acc,
              (∀ s, s ∈ seen →
                    is_Some (transition (environment self) state action !! s)
                    ∧ is_Some (valueUtility self !! s))
              ∧ acc = weighted_sum (transition (environment self) state action)
                                   (valueUtility self) seen)) in Hr.
  - destruct Hr as [Hc ->]. split_and!; [..|done]; intros s Hs; by apply Hc.
  - split; [|done]. intros s Hs. set_solver.
  - intros seen x acc acc' [Hc ->] _ Hb. cbv beta in Hb.
    destruct (py_getitem (transition _ _ _) x) as [p|?] eqn:E1; [|done].
    rewrite bind_Ok in Hb.
    destruct (py_getitem (valueUtility self) x) as [v|?] eqn:E2; [|done].
    rewrite bind_Ok in Hb.
    injection Hb as <-. apply py_getitem_Ok in E1, E2. split.
    + intros s [Hs| ->%list_elem_of_singleton]%elem_of_app; [by apply Hc|].
      rewrite E1, E2. eauto.
    + unfold weighted_sum. rewrite foldl_app. simpl. by rewrite E1, E2.
Qed.

Lemma expected_action_utility_returns self state action :
  covers (environment self) (transition (environment self) state action) →
  covers (environment self) (valueUtility self) →
  ∃ r, expected_action_utility self state action = Ok r.
Proof.
  intros HT HV.
  destruct (py_for_returns
              (λ acc next_state,
                 p ← py_getitem (transition (environment self) state action) next_state;
                 v ← py_getitem (valueUtility self) next_state;
                 Ok (acc + p * v)%float)
              (λ _, True) (stateSet (environment self)) 0%float) as (r & Hr & _);
    [done| |by exists r].
  intros x acc Hx _.
  destruct (HT x Hx) as [p Hp], (HV x Hx) as [v Hv].
  apply py_getitem_Ok in Hp, Hv. rewrite Hp, bind_Ok, Hv, bind_Ok. eauto.
Qed.

Lemma actionMaximumExpectedUtility_raises self state e :
  actionMaximumExpectedUtility self state = Raise e → e = KeyError.
Proof.
  intros (x & [b u] & _ & Hb)%py_for_raises.
  destruct (expected_action_utility self state x) as [r|e'] eqn:E.
  - rewrite bind_Ok in Hb. by destruct (py_gt r u).
  - rewrite bind_Raise in Hb. injection Hb as <-.
    by eapply expected_action_utility_raises.
Qed.

Lemma actionMaximumExpectedUtility_returns self state :
  covers (environment self) (valueUtility self) →
  (∀ a, a ∈ actionSet (environment self) →
        covers (environment self) (transition (environment self) state a)) →
  ∃ r, actionMaximumExpectedUtility self state = Ok r.
Proof.
  intros HV HT.
  destruct (py_for_returns
              (λ '(best_action, best_action_utility) action,
                 eau ← expected_action_utility self state action;
                 if py_gt eau best_action_utility
                 then Ok (Some action, eau)
                 else Ok (best_action, best_action_utility))
              (λ _, True) (actionSet (environment self)) (None, neg_infinity))
    as (r & Hr & _); [done| |by exists r].
  intros a [b u] Ha _.
  destruct (expected_action_utility_returns self state a) as [r ->]; [by apply HT|done|].
  rewrite bind_Ok. destruct (py_gt r u); eauto.
Qed.

Lemma actionMaximumExpectedUtility_no_action self state :
  actionSet (environment self) = [] →
  actionMaximumExpectedUtility self state = Ok (None, neg_infinity).
Proof. unfold actionMaximumExpectedUtility. by intros ->. Qed.

(** The best-action computation reads the environment and the value
    function only. *)
Lemma actionMaximumExpectedUtility_set_policy self p state :
  actionMaximumExpectedUtility (set_policy p self) state
  = actionMaximumExpectedUtility self state.
Proof. reflexivity. Qed.

(** ** One sweep *)

Lemma sweep_raises self e : sweep self = Raise e → e = KeyError.
Proof.
  intros (x & [next mcu] & _ & Hb)%py_for_raises. unfold sweep_body in Hb.
  destruct (bool_decide _); [done|].
  destruct (actionMaximumExpectedUtility self x) as [[a meu]|e'] eqn:E.
  - rewrite bind_Ok in Hb.
    destruct (py_getitem (valueUtility self) x) as [old|e'] eqn:E2.
    + rewrite bind_Ok in Hb. unfold py_getitem in Hb.
      rewrite lookup_insert_eq, bind_Ok in Hb. by destruct (py_gt _ _).
    + rewrite bind_Raise in Hb. injection Hb as <-.
      by apply py_getitem_Raise in E2 as [_ ->].
  - rewrite bind_Raise in Hb. injection Hb as <-.
    by eapply actionMaximumExpectedUtility_raises.
Qed.

Lemma sweep_returns self :
  covers (environment self) (valueUtility self) →
  total_transitions (environment self) →
  ∃ next change, sweep self = Ok (next, change).
Proof.
  intros HV HT.
  destruct (py_for_returns (sweep_body self) (λ _, True)
              (stateSet (environment self)) (∅, 0%float)) as ([next c] & Hr & _);
    [done| |by exists next, c].
  intros x [next mcu] Hx _. unfold sweep_body.
  destruct (bool_decide _); [eauto|].
  destruct (actionMaximumExpectedUtility_returns self x) as [[a meu] ->];
    [done|by intros a ?; apply HT|].
  rewrite bind_Ok. destruct (HV x Hx) as [old Hold].
  apply py_getitem_Ok in Hold. rewrite Hold, bind_Ok.
  unfold py_getitem. rewrite lookup_insert_eq, bind_Ok.
  destruct (py_gt _ _); eauto.
Qed.

Lemma sweep_covers self next change :
  sweep self = Ok (next, change) → covers (environment self) next.
Proof.
  intros (Hin & _ & _)%sweep_spec s Hs.
  destruct (Hin s Hs) as (v & _ & ->). eauto.
Qed.

Lemma zero_valueUtility_lookup env s :
  zero_valueUtility env !! s
  = if decide (s ∈ stateSet env) then Some 0%float else None.
Proof.
  unfold zero_valueUtility.
  assert (∀ l (d : gmap State float),
             foldl (λ d state, <[state := 0%float]> d) d l !! s
             = if decide (s ∈ l) then Some 0%float else d !! s) as Hgen.
  { induction l as [|x l IH]; intros d.
    - destruct (decide (s ∈ [])) as [Hin|Hin]; [set_solver|done].
    - change (foldl (λ d state, <[state := 0%float]> d) (<[x := 0%float]> d) l !! s
              = if decide (s ∈ x :: l) then Some 0%float else d !! s).
      rewrite IH. repeat case_decide; try done; try set_solver.
      + destruct (decide (s = x)) as [->|Hne]; [apply lookup_insert_eq|set_solver].
      + rewrite lookup_insert_ne; [done|set_solver]. }
  rewrite Hgen. by destruct (decide _).
Qed.

Lemma zero_valueUtility_covers env : covers env (zero_valueUtility env).
Proof.
  intros s Hs. rewrite zero_valueUtility_lookup, decide_True by done. eauto.
Qed.

(** ** The policy *)

Lemma build_policy_raises self e : build_policy self = Raise e → e = KeyError.
Proof.
  intros (x & pol & _ & Hb)%py_for_raises.
  destruct (actionMaximumExpectedUtility self x) as [[a meu]|e'] eqn:E; [done|].
  rewrite bind_Raise in Hb. injection Hb as <-.
  by eapply actionMaximumExpectedUtility_raises.
Qed.

Lemma build_policy_returns self :
  covers (environment self) (valueUtility self) →
  total_transitions (environment self) →
  ∃ pol, build_policy self = Ok pol.
Proof.
  intros HV HT.
  destruct (py_for_returns
              (λ (pol : gmap State (option Action)) state,
                 '(action, action_meu) ← actionMaximumExpectedUtility self state;
                 Ok (<[state := action]> pol))
              (λ _, True) (stateSet (environment self)) ∅) as (pol & Hr & _);
    [done| |by exists pol].
  intros x pol Hx _.
  destruct (actionMaximumExpectedUtility_returns self x) as [[a meu] ->];
    [done|by intros a ?; apply HT|].
  rewrite bind_Ok. eauto.
Qed.

(** The policy holds, for each state of [stateSet] and for no other, what
    [getAction] returns for it. *)
Lemma build_policy_Ok self pol :
  build_policy self = Ok pol →
  (∀ s, s ∈ stateSet (environment self) →
        ∃ a, getAction self s = Ok a ∧ pol !! s = Some a)
  ∧ (∀ s, s ∉ stateSet (environment self) → pol !! s = None).
Proof.
  intros Hp.
  apply (py_for_invariant _
           (λ seen acc,
              (∀ s, s ∈ seen → ∃ a, getAction self s = Ok a ∧ acc !! s = Some a)
              ∧ (∀ s, s ∉ seen → acc !! s = None))) in Hp; [done|..].
  - split; intros s Hs; [set_solver|apply lookup_empty].
  - intros seen x acc acc' [I1 I2] _ Hb. cbv beta in Hb.
    destruct (actionMaximumExpectedUtility self x) as [[a meu]|e] eqn:E; [|done].
    rewrite bind_Ok in Hb. injection Hb as <-.
    assert (getAction self x = Ok a) as Hx.
    { unfold getAction. by rewrite E. }
    split.
    + intros s Hs. destruct (decide (s = x)) as [->|Hne].
      * exists a. by rewrite lookup_insert_eq.
      * rewrite lookup_insert_ne by done. apply I1. set_solver.
    + intros s Hs. rewrite lookup_insert_ne by set_solver. apply I2. set_solver.
Qed.

(** ** The [while] loop *)

Lemma stopping_bound_Ok self bound :
  stopping_bound self = Ok bound ↔
  (discountFactor self =? 0)%float = false
  ∧ bound = (maximumErrorRate self * (1 - discountFactor self) / discountFactor self)%float.
Proof.
  unfold stopping_bound, py_truediv.
  destruct (discountFactor self =? 0)%float; split; try done.
  - by intros [? _].
  - by intros [= <-].
  - by intros [_ ->].
Qed.

Lemma stopping_bound_Raise self e :
  stopping_bound self = Raise e ↔
  (discountFactor self =? 0)%float = true ∧ e = ZeroDivisionError.
Proof.
  unfold stopping_bound, py_truediv.
  destruct (discountFactor self =? 0)%float; split; try done.
  - by intros [= <-].
  - by intros [_ ->].
  - by intros [? _].
Qed.

(** What a loop that returns leaves unchanged, and what it writes. *)
Lemma while_loop_Ok fuel self change it out self' it' out' :
  while_loop fuel self change it out = Some (Ok (self', it', out')) →
  environment self' = environment self
  ∧ discountFactor self' = discountFactor self
  ∧ maximumErrorRate self' = maximumErrorRate self
  ∧ policy self' = policy self
  ∧ (covers (environment self) (valueUtility self) →
     covers (environment self) (valueUtility self'))
  ∧ (∀ V i, DisplayValueFunction V i ∈ out' →
            DisplayValueFunction V i ∈ out
            ∨ ∃ a c, environment a = environment self ∧ sweep a = Ok (V, c)).
Proof.
  revert self change it out.
  induction fuel as [|fuel IH]; intros self change it out Hw; [done|].
  simpl in Hw. destruct (stopping_bound self) as [bound|e]; [|done].
  destruct (py_gt change bound).
  - destruct (sweep self) as [[next c]|e] eqn:Hs; [|done].
    apply IH in Hw as (He & Hd & Hm & Hp & Hc & Ho). simpl in *.
    split_and!; try done.
    + intros _. apply Hc, (sweep_covers _ _ _ Hs).
    + intros V i HV. destruct (Ho V i HV) as [Hin|(a & c' & Ha & Hsa)].
      * apply elem_of_app in Hin as [Hin|Hin]; [by left|right].
        apply elem_of_cons in Hin as [[= -> ->]|Hin]; [by exists self, c|].
        apply list_elem_of_singleton in Hin. done.
      * right. by exists a, c'.
  - injection Hw as <- <- <-. split_and!; auto.
Qed.

Lemma while_loop_raises fuel self change it out e :
  while_loop fuel self change it out = Some (Raise e) →
  (e = ZeroDivisionError ∧ (discountFactor self =? 0)%float = true)
  ∨ e = KeyError.
Proof.
  revert self change it out.
  induction fuel as [|fuel IH]; intros self change it out Hw; [done|].
  simpl in Hw. destruct (stopping_bound self) as [bound|e'] eqn:Hb.
  - destruct (py_gt change bound); [|done].
    destruct (sweep self) as [[next c]|e'] eqn:Hs.
    + by apply IH in Hw.
    + injection Hw as <-. right. by eapply sweep_raises.
  - injection Hw as <-. apply stopping_bound_Raise in Hb as [? ->]. by left.
Qed.

(** With mappings that have an entry for every state and a discount factor
    other than zero, the loop raises nothing. *)
Lemma while_loop_no_exception fuel self change it out e :
  covers (environment self) (valueUtility self) →
  total_transitions (environment self) →
  (discountFactor self =? 0)%float = false →
  while_loop fuel self change it out ≠ Some (Raise e).
Proof.
  revert self change it out.
  induction fuel as [|fuel IH]; intros self change it out HV HT Hd; [done|].
  simpl. destruct (stopping_bound self) as [bound|e'] eqn:Hb.
  - destruct (py_gt change bound); [|done].
    destruct (sweep_returns self HV HT) as (next & c & Hs). rewrite Hs.
    apply IH; simpl; [|done..].
    apply (sweep_covers _ _ _ Hs).
  - apply stopping_bound_Raise in Hb as [? _]. congruence.
Qed.

(** The loop and the sweeps counted one by one.  [after_sweeps i] is the
    state of the loop at its test number [i]. *)
Lemma while_loop_after_sweeps fuel self change it out bound self' it' out' :
  stopping_bound self = Ok bound →
  is_nan bound = false →
  is_nan change = false →
  while_loop fuel self change it out = Some (Ok (self', it', out')) →
  ∃ n c,
    n < fuel ∧ it' = it + n
    ∧ after_sweeps n self change = Ok (self', c)
    ∧ (c <=? bound)%float = true
    ∧ ∀ i, i < n →
           ∃ a ci, after_sweeps i self change = Ok (a, ci) ∧ py_gt ci bound = true.
Proof.
  intros Hb Hnb. revert self change it out Hb.
  induction fuel as [|fuel IH]; intros self change it out Hb Hnc Hw; [done|].
  simpl in Hw. rewrite Hb in Hw.
  destruct (py_gt change bound) eqn:Hgt.
  - destruct (sweep self) as [[next c]|e] eqn:Hs; [|done].
    apply IH in Hw as (n & cn & Hn & -> & Ha & Hle & Hall).
    + exists (S n), cn. split_and!; [lia|lia| |done|].
      * simpl. by rewrite Hs, bind_Ok.
      * intros [|i] Hi; [by exists self, change|].
        destruct (Hall i) as (a & ci & Hai & Hci); [lia|].
        exists a, ci. simpl. by rewrite Hs, bind_Ok.
    + done.
    + by apply sweep_spec in Hs as (_ & _ & ? & _).
  - injection Hw as <- <- <-. exists 0, change.
    split_and!; [lia|lia|done| |intros i Hi; lia].
    by apply not_ltb_leb.
Qed.

Lemma after_sweeps_while_loop n fuel self change it out bound self' c :
  stopping_bound self = Ok bound →
  n < fuel →
  after_sweeps n self change = Ok (self', c) →
  (c <=? bound)%float = true →
  (∀ i, i < n →
        ∃ a ci, after_sweeps i self change = Ok (a, ci) ∧ py_gt ci bound = true) →
  ∃ out', while_loop fuel self change it out = Some (Ok (self', it + n, out')).
Proof.
  revert fuel self change it out.
  induction n as [|n IH]; intros fuel self change it out Hb Hn Ha Hle Hall.
  - destruct fuel as [|fuel]; [lia|]. simpl in *. injection Ha as <- <-.
    rewrite Hb. unfold py_gt. rewrite (leb_not_ltb _ _ Hle).
    exists out. by rewrite Nat.add_0_r.
  - destruct fuel as [|fuel]; [lia|]. simpl in *. rewrite Hb.
    destruct (Hall 0) as (a0 & c0 & [= <- <-] & ->); [lia|].
    destruct (sweep self) as [[next c1]|e] eqn:Hs; [|done].
    rewrite bind_Ok in Ha.
    destruct (IH fuel (set_valueUtility next self) c1 (S it)
                (out ++ [DisplayValueFunction next it; Print it c1]))
      as [out' Hw]; [done|lia|done|done| |].
    + intros i Hi. destruct (Hall (S i)) as (a & ci & Hai & Hci); [lia|].
      simpl in Hai. rewrite Hs, bind_Ok in Hai. eauto.
    + exists out'. rewrite Hw. by rewrite Nat.add_succ_r.
Qed.

(** ** The constructor *)

Lemma init_Ok fuel env γ ε self out :
  __init__ fuel env γ ε = Some (Ok (self, out)) →
  ∃ self1 it pol,
    while_loop fuel (initial_self env γ ε) infinity 0 [] = Some (Ok (self1, it, out))
    ∧ build_policy self1 = Ok pol
    ∧ self = set_policy pol self1.
Proof.
  unfold __init__.
  destruct (while_loop _ _ _ _ _) as [[[[self1 it] out1]|e]|]; [|done..].
  destruct (build_policy self1) as [pol|e] eqn:Hp; [|done].
  rewrite bind_Ok. intros [= <- <-]. by exists self1, it, pol.
Qed.

Lemma init_raises fuel env γ ε e :
  __init__ fuel env γ ε = Some (Raise e) →
  (e = ZeroDivisionError ∧ (γ =? 0)%float = true) ∨ e = KeyError.
Proof.
  unfold __init__.
  destruct (while_loop _ _ _ _ _) as [[[[self1 it] out1]|e']|] eqn:Hw; [| |done].
  - destruct (build_policy self1) as [pol|e'] eqn:Hp; [done|].
    rewrite bind_Raise. intros [= <-]. right. by eapply build_policy_raises.
  - intros [= <-]. by apply while_loop_raises in Hw.
Qed.

End AgentFacts.

(** * The properties of the specification *)

Section Properties.
Context {State Action : Type} `{Countable State}.
Implicit Types (self : Agent State Action) (env : Environment State Action).
Implicit Types (s state : State) (V next : gmap State float).

(** C2, as the code has it.  For every state, action and value function the
    inner loop adds [T(s,a,s') * V(s')] over ALL the states of [stateSet], in
    their order, from [0.]; this needs an entry for every state in the mapping
    returned by [transition].  When the mapping leaves a state of [stateSet]
    out, the subscript raises [KeyError]: an absent state does not count as
    probability 0. *)
Theorem C2_expected_utility_needs_every_entry self state action :
  (covers (environment self) (transition (environment self) state action) →
   covers (environment self) (valueUtility self) →
   expected_action_utility self state action
   = Ok (weighted_sum (transition (environment self) state action)
                      (valueUtility self) (stateSet (environment self))))
  ∧ ((∃ s', s' ∈ stateSet (environment self)
            ∧ transition (environment self) state action !! s' = None) →
     expected_action_utility self state action = Raise KeyError
     ∧ (action ∈ actionSet (environment self) →
        actionMaximumExpectedUtility self state = Raise KeyError)).
Proof.
  split.
  - intros HT HV.
    destruct (expected_action_utility_returns self state action HT HV) as [r Hr].
    rewrite Hr. by apply expected_action_utility_Ok in Hr as (_ & _ & ->).
  - intros (s' & Hs' & Hnone).
    assert (expected_action_utility self state action = Raise KeyError) as Hraise.
    { destruct (expected_action_utility self state action) as [r|e] eqn:E.
      - apply expected_action_utility_Ok in E as (HT & _ & _).
        destruct (HT s' Hs') as [p Hp]. congruence.
      - by rewrite (expected_action_utility_raises _ _ _ _ E). }
    split; [done|]. intros Ha.
    destruct (actionMaximumExpectedUtility self state) as [[b u]|e] eqn:E.
    + exfalso.
      assert (∀ a, a ∈ actionSet (environment self) →
                   ∃ r, expected_action_utility self state a = Ok r) as Hall.
      { revert E. unfold actionMaximumExpectedUtility.
        apply (py_for_invariant _
                 (λ seen (_ : option Action * float),
                    ∀ a, a ∈ seen → ∃ r, expected_action_utility self state a = Ok r)).
        - intros a Hin. set_solver.
        - intros seen x [b0 u0] acc' Hseen _ Hb a Hin.
          apply elem_of_app in Hin as [Hin| ->%list_elem_of_singleton]; [auto|].
          destruct (expected_action_utility self state x) as [r|e]; [eauto|done]. }
      destruct (Hall action Ha) as [r Hr]. congruence.
    + by rewrite (actionMaximumExpectedUtility_raises _ _ _ E).
Qed.

(** C3, as the code has it.  With an empty action set the best-action
    computation raises nothing for any state: its loop body never runs and it
    returns the pair ([None], [-inf]); the sweep then stores
    [R(s) + discount * (-inf)] for a state that is not final. *)
Theorem C3_no_action_gives_None self s :
  actionSet (environment self) = [] →
  actionMaximumExpectedUtility self s = Ok (None, neg_infinity)
  ∧ getAction self s = Ok None
  ∧ (covers (environment self) (valueUtility self) →
     ∃ next change,
       sweep self = Ok (next, change)
       ∧ (s ∈ stateSet (environment self) →
          s ∉ finalStateSet (environment self) →
          next !! s = Some (reward (environment self) s
                            + discountFactor self * neg_infinity)%float)).
Proof.
  intros Hno.
  pose proof (actionMaximumExpectedUtility_no_action self s Hno) as Ha.
  split_and!; [done|unfold getAction; by rewrite Ha|].
  intros HV. destruct (sweep_returns self HV) as (next & change & Hs).
  { intros s0 a _ Hin. rewrite Hno in Hin. set_solver. }
  exists next, change. split; [done|]. intros Hin Hnf.
  apply sweep_spec in Hs as (Hb & _ & _).
  destruct (Hb s Hin) as (v & Hv & ->).
  unfold bellman_backup in Hv. rewrite bool_decide_eq_false_2 in Hv by done.
  rewrite Ha, bind_Ok in Hv. by injection Hv as <-.
Qed.

(** C4, as the code has it.  The constructor checks nothing: a discount
    factor of 0 (or -0.) makes the division of the loop test raise
    [ZeroDivisionError] before any sweep; with a discount factor of 1 (and a
    finite error rate) the stopping bound is a zero, the test
    [float("inf") > 0.] holds and the first sweep runs. *)
Theorem C4_discount_factor_is_not_checked env ε fuel :
  __init__ (S fuel) env 0 ε = Some (Raise ZeroDivisionError)
  ∧ __init__ (S fuel) env (-0) ε = Some (Raise ZeroDivisionError)
  ∧ (is_finite ε = true →
     while_loop (S fuel) (initial_self env 1 ε) infinity 0 []
     = match sweep (initial_self env 1 ε) with
       | Raise e => Some (Raise e)
       | Ok (next, change) =>
         while_loop fuel (set_valueUtility next (initial_self env 1 ε)) change 1
                    [DisplayValueFunction next 0; Print 0 change]
       end).
Proof.
  split_and!; [done..|].
  intros Hfin. simpl. unfold stopping_bound, py_truediv. simpl.
  change (1 =? 0)%float with false. cbv iota.
  unfold py_gt.
  by rewrite (bound_at_one ε Hfin : (ε * 0 / 1 <? infinity)%float = true).
Qed.

(** C5, as the code has it.  [getAction] does not look the policy up: it
    runs the best-action computation again.  For a state that has an entry in
    the policy it returns that entry; for any other state it raises no
    [UnknownStateError]: it returns whenever the mappings of that state have
    an entry for every state of [stateSet], and any exception is the
    [KeyError] of a subscript. *)
Theorem C5_getAction_computes_again fuel env γ ε self out :
  __init__ fuel env γ ε = Some (Ok (self, out)) →
  (∀ s a, policy self !! s = Some a → getAction self s = Ok a)
  ∧ (∀ s, (∀ a, a ∈ actionSet env → covers env (transition env s a)) →
          ∃ a, getAction self s = Ok a)
  ∧ (∀ s e, getAction self s = Raise e → e = KeyError).
Proof.
  intros (self1 & it & pol & Hw & Hp & ->)%init_Ok.
  apply while_loop_Ok in Hw as (He & _ & _ & _ & Hc & _). simpl in He, Hc.
  specialize (Hc (zero_valueUtility_covers env)).
  apply build_policy_Ok in Hp as [Hin Hout]. rewrite He in Hin, Hout.
  split_and!.
  - intros s a Hs. simpl in Hs.
    destruct (decide (s ∈ stateSet env)) as [Hs'|Hs'].
    + destruct (Hin s Hs') as (a' & Ha' & Hl). rewrite Hl in Hs. by injection Hs as <-.
    + rewrite (Hout s Hs') in Hs. done.
  - intros s HT.
    destruct (actionMaximumExpectedUtility_returns self1 s) as [[a u] Ha].
    + by rewrite He.
    + rewrite He. done.
    + exists a. unfold getAction. rewrite actionMaximumExpectedUtility_set_policy.
      by rewrite Ha.
  - intros s e. unfold getAction. rewrite actionMaximumExpectedUtility_set_policy.
    destruct (actionMaximumExpectedUtility self1 s) as [[a u]|e'] eqn:E; [done|].
    rewrite bind_Raise. intros [= <-]. by eapply actionMaximumExpectedUtility_raises.
Qed.

(** C6, as the code has it.  The constructor validates no transition
    mapping.  Whatever the probabilities add up to, when every mapping has an
    entry for every state and the discount factor is not zero, the constructor
    raises nothing: it returns, or it is still running when the fuel ends. *)
Theorem C6_transitions_are_not_validated fuel env γ ε :
  total_transitions env →
  (γ =? 0)%float = false →
  __init__ fuel env γ ε = None
  ∨ ∃ self out, __init__ fuel env γ ε = Some (Ok (self, out)).
Proof.
  intros HT Hγ. unfold __init__.
  destruct (while_loop _ _ _ _ _) as [[[[self1 it] out]|e]|] eqn:Hw; [| |by left].
  - right. apply while_loop_Ok in Hw as (He & _ & _ & _ & Hc & _). simpl in He, Hc.
    specialize (Hc (zero_valueUtility_covers env)).
    destruct (build_policy_returns self1) as [pol ->]; [by rewrite He..|].
    rewrite bind_Ok. eauto.
  - exfalso. by eapply while_loop_no_exception, Hw; [apply zero_valueUtility_covers|..].
Qed.

(** C7.  For a discount factor in (0, 1) and a positive error rate
    the stopping bound [ε·(1−γ)/γ] is computed without error and is a number.
    Each test of the loop compares the current [maximum_change_utility] with
    it: above the bound a sweep runs and the loop goes on, otherwise the loop
    ends.  The change a sweep produces is the greatest [|V(s) − V'(s)|] over
    the states that are not final (final states take no part).  So the loop
    that starts from [float("inf")] ends after exactly [n] sweeps if and only
    if the change found at test [n] is the first one at most the bound. *)
Theorem C7_loop_runs_while_change_exceeds_bound self :
  (0 <? discountFactor self)%float = true →
  (discountFactor self <? 1)%float = true →
  (0 <? maximumErrorRate self)%float = true →
  ∃ bound,
    stopping_bound self = Ok bound
    ∧ bound = (maximumErrorRate self * (1 - discountFactor self)
               / discountFactor self)%float
    ∧ is_nan bound = false
    ∧ (∀ fuel change it out,
         while_loop (S fuel) self change it out
         = if py_gt change bound then
             match sweep self with
             | Raise e => Some (Raise e)
             | Ok (next, change') =>
               while_loop fuel (set_valueUtility next self) change' (S it)
                          (out ++ [DisplayValueFunction next it; Print it change'])
             end
           else Some (Ok (self, it, out)))
    ∧ (∀ (a : Agent State Action) next change,
         sweep a = Ok (next, change) → is_maximum_change a next change)
    ∧ (∀ fuel self' n,
         (∃ out, while_loop fuel self infinity 0 [] = Some (Ok (self', n, out)))
         ↔ n < fuel
           ∧ ∃ c, after_sweeps n self infinity = Ok (self', c)
                  ∧ (c <=? bound)%float = true
                  ∧ ∀ i, i < n →
                         ∃ a ci, after_sweeps i self infinity = Ok (a, ci)
                                 ∧ py_gt ci bound = true).
Proof.
  intros Hγ0 Hγ1 Hε0.
  destruct (bound_is_a_number _ _ Hγ0 Hγ1 Hε0) as [Hz Hnan].
  set (bound := (maximumErrorRate self * (1 - discountFactor self)
                 / discountFactor self)%float) in *.
  assert (stopping_bound self = Ok bound) as Hb by by apply stopping_bound_Ok.
  exists bound. split_and!; [done..| | |].
  - intros fuel change it out. simpl. by rewrite Hb.
  - intros a next change Hs. by apply sweep_spec in Hs as (_ & _ & ?).
  - intros fuel self' n. split.
    + intros [out Hw].
      apply (while_loop_after_sweeps _ _ _ _ _ bound) in Hw
        as (n' & c & Hlt & -> & Ha & Hle & Hall); [|done..].
      split; [done|]. by exists c.
    + intros (Hlt & c & Ha & Hle & Hall).
      by apply (after_sweeps_while_loop n fuel self infinity 0 [] bound self' c).
Qed.

(** C8.  For every final state [s] of [stateSet], the value function that
    any sweep produces holds the reward of [s], whatever the discount factor
    and the values before the sweep; so does every value function the
    constructor displays, one per sweep. *)
Theorem C8_final_states_hold_their_reward env s :
  s ∈ stateSet env →
  s ∈ finalStateSet env →
  (∀ (a : Agent State Action) next change,
     environment a = env → sweep a = Ok (next, change) →
     next !! s = Some (reward env s))
  ∧ (∀ fuel γ ε self out V i,
       __init__ fuel env γ ε = Some (Ok (self, out)) →
       DisplayValueFunction V i ∈ out →
       V !! s = Some (reward env s)).
Proof.
  intros Hin Hfin.
  assert (∀ (a : Agent State Action) next change,
             environment a = env → sweep a = Ok (next, change) →
             next !! s = Some (reward env s)) as Hsweep.
  { intros a next change <- (Hb & _)%sweep_spec.
    destruct (Hb s Hin) as (v & Hv & ->).
    unfold bellman_backup in Hv. rewrite bool_decide_eq_true_2 in Hv by done.
    by injection Hv as <-. }
  split; [done|].
  intros fuel γ ε self out V i (self1 & it & pol & Hw & _ & _)%init_Ok HV.
  apply while_loop_Ok in Hw as (_ & _ & _ & _ & _ & Hout).
  destruct (Hout V i HV) as [Hnil|(a & c & Ha & Hs)]; [set_solver|].
  by eapply Hsweep.
Qed.

(** C9.  A sweep that returns gives each state of [stateSet] its backup
    computed from [self.valueUtility] as it was before the sweep, and gives no
    entry to any other state.  The values the sweep has already stored in
    [next_value_utility] are not read: a round started on another dictionary
    stores the same value, and the states taken in another order give the
    same dictionary.  [self.valueUtility] is replaced by the whole new
    dictionary after the sweep, when the loop goes on. *)
Theorem C9_sweep_reads_previous_snapshot self next change :
  sweep self = Ok (next, change) →
  (∀ s, s ∈ stateSet (environment self) →
        ∃ v, bellman_backup self s = Ok v ∧ next !! s = Some v)
  ∧ (∀ s, s ∉ stateSet (environment self) → next !! s = None)
  ∧ (∀ n1 n2 m x n1' m',
       sweep_body self (n1, m) x = Ok (n1', m') →
       ∃ v, n1' = <[x := v]> n1
            ∧ sweep_body self (n2, m) x = Ok (<[x := v]> n2, m'))
  ∧ (∀ (l : list State) next' change',
       (∀ s, s ∈ l ↔ s ∈ stateSet (environment self)) →
       py_for l (sweep_body self) (∅, 0%float) = Ok (next', change') →
       next' = next)
  ∧ (∀ fuel bound c it out,
       stopping_bound self = Ok bound → py_gt c bound = true →
       while_loop (S fuel) self c it out
       = while_loop fuel (set_valueUtility next self) change (S it)
                    (out ++ [DisplayValueFunction next it; Print it change]))
  ∧ valueUtility (set_valueUtility next self) = next.
Proof.
  intros Hs. pose proof (sweep_spec _ _ _ Hs) as (Hb & Hout & _).
  split_and!; [done|done|apply sweep_body_ignores_next| | |done].
  - intros l next' change' Hl (I1 & I2 & _)%sweep_over_spec. simpl in I1, I2.
    apply map_eq. intros s.
    destruct (decide (s ∈ stateSet (environment self))) as [Hin|Hin].
    + destruct (Hb s Hin) as (v & Hv & ->).
      destruct (I1 s) as (v' & Hv' & -> & _); [by apply Hl|]. congruence.
    + rewrite (Hout s Hin). apply I2. by rewrite Hl.
  - intros fuel bound c it out Hbound Hgt. simpl. by rewrite Hbound, Hgt, Hs.
Qed.

(** C10.  After a constructor call that returned, for every state of
    [stateSet] the policy has an entry and [getAction] returns it. *)
Theorem C10_getAction_agrees_with_policy fuel env γ ε self out s :
  __init__ fuel env γ ε = Some (Ok (self, out)) →
  s ∈ stateSet env →
  ∃ a, policy self !! s = Some a ∧ getAction self s = Ok a.
Proof.
  intros (self1 & it & pol & Hw & Hp & ->)%init_Ok Hs.
  apply while_loop_Ok in Hw as (He & _). simpl in He.
  apply build_policy_Ok in Hp as [Hin _]. rewrite He in Hin.
  destruct (Hin s Hs) as (a & Ha & Hl). exists a. split; [done|].
  unfold getAction in *. by rewrite actionMaximumExpectedUtility_set_policy.
Qed.

End Properties.

(** * The scenarios, run *)

(** C1, where the code departs from it.  On the chain of scenario A, with a
    discount factor of 0.9 and an error rate of 0.01, the constructor returns
    after ONE sweep.  That sweep reads the all-zero initial values: it gives
    [s1] its reward 10 and [s0] the value 0 + 0.9 * (0*0 + 1*0) = 0, so the
    only change that counts (that of [s0]) is 0 and the loop ends.  The final
    value of [s0] is 0., not 9.; one more sweep would give 9. with a change
    of 9.  The policy does map [s0] to the only action. *)
Theorem C1_chain_stops_after_one_sweep fuel :
  ∃ self out next change,
    __init__ (S (S fuel)) chain 0.9 0.01 = Some (Ok (self, out))
    ∧ out = [DisplayValueFunction (valueUtility self) 0; Print 0 0%float]
    ∧ valueUtility self !! "s1" = Some 10%float
    ∧ valueUtility self !! "s0" = Some 0%float
    ∧ policy self !! "s0" = Some (Some "go")
    ∧ sweep self = Ok (next, change)
    ∧ next !! "s0" = Some 9%float
    ∧ change = 9%float.
Proof.
  eexists _, _, _, _. split_and!.
  - vm_compute. reflexivity.
  - vm_compute. reflexivity.
  - vm_compute. reflexivity.
  - vm_compute. reflexivity.
  - vm_compute. reflexivity.
  - vm_compute. reflexivity.
  - vm_compute. reflexivity.
  - reflexivity.
Qed.

(** C2 fails as it is written: the mapping of [sparse_chain] leaves [s0]
    out, and the computation raises [KeyError] instead of counting 0. *)
Lemma C2_absent_state_raises_KeyError :
  stateSet sparse_chain = ["s0"; "s1"]
  ∧ transition sparse_chain "s0" "go" !! "s0" = None
  ∧ expected_action_utility (initial_self sparse_chain 0.9 0.01) "s0" "go"
    = Raise KeyError
  ∧ actionMaximumExpectedUtility (initial_self sparse_chain 0.9 0.01) "s0"
    = Raise KeyError
  ∧ __init__ 2 sparse_chain 0.9 0.01 = Some (Raise KeyError).
Proof. split_and!; vm_compute; reflexivity. Qed.

Lemma C2_expected_utility_needs_every_entry_witness :
  covers chain (transition chain "s0" "go")
  ∧ covers chain (valueUtility (solved (__init__ 2 chain 0.9 0.01)))
  ∧ expected_action_utility (solved (__init__ 2 chain 0.9 0.01)) "s0" "go"
    = Ok 10%float.
Proof.
  assert (∀ d : gmap string float,
             is_Some (d !! "s0") → is_Some (d !! "s1") → covers chain d) as Hcovers.
  { intros d H0 H1 s Hs. simpl in Hs.
    apply elem_of_cons in Hs as [->|Hs]; [exact H0|].
    apply list_elem_of_singleton in Hs as ->. exact H1. }
  assert (covers chain (transition chain "s0" "go")) as HT
    by (apply Hcovers; eexists; vm_compute; reflexivity).
  assert (covers chain (valueUtility (solved (__init__ 2 chain 0.9 0.01)))) as HV
    by (apply Hcovers; eexists; vm_compute; reflexivity).
  split_and!; [exact HT|exact HV|].
  rewrite (proj1 (C2_expected_utility_needs_every_entry
                    (solved (__init__ 2 chain 0.9 0.01)) "s0" "go") HT HV).
  vm_compute. reflexivity.
Defined.

(** C3 fails as it is written: without any action, the best-action
    computation for the state [s0], which is not final, returns
    ([None], [-inf]), and the constructor returns after two sweeps with a
    policy that maps [s0] to [None]. *)
Lemma C3_no_action_raises_nothing :
  actionSet stuck_chain = []
  ∧ bool_decide ("s0" ∈ finalStateSet stuck_chain) = false
  ∧ actionMaximumExpectedUtility (initial_self stuck_chain 0.9 0.01) "s0"
    = Ok (None, neg_infinity)
  ∧ ∃ self out,
      __init__ 3 stuck_chain 0.9 0.01 = Some (Ok (self, out))
      ∧ length out = 4
      ∧ valueUtility self !! "s0" = Some neg_infinity
      ∧ policy self !! "s0" = Some None.
Proof.
  split_and!; [vm_compute; reflexivity..|].
  eexists _, _. split_and!; vm_compute; reflexivity.
Qed.

Lemma C3_no_action_gives_None_witness :
  actionSet (environment (initial_self stuck_chain 0.9 0.01)) = []
  ∧ getAction (initial_self stuck_chain 0.9 0.01) "s0" = Ok None.
Proof.
  split; [reflexivity|].
  exact (proj1 (proj2 (C3_no_action_gives_None
                         (initial_self stuck_chain 0.9 0.01) "s0" eq_refl))).
Defined.

(** C4 fails as it is written: with a discount factor of 1 the constructor
    raises nothing and runs a sweep. *)
Lemma C4_discount_one_runs_a_sweep :
  ∃ self out,
    __init__ 2 chain 1 0.01 = Some (Ok (self, out))
    ∧ out = [DisplayValueFunction (valueUtility self) 0; Print 0 0%float].
Proof. eexists _, _. split; vm_compute; reflexivity. Qed.

Lemma C4_discount_factor_is_not_checked_witness :
  is_finite 0.01 = true
  ∧ __init__ 1 chain 0 0.01 = Some (Raise ZeroDivisionError)
  ∧ while_loop 2 (initial_self chain 1 0.01) infinity 0 []
    = match sweep (initial_self chain 1 0.01) with
      | Raise e => Some (Raise e)
      | Ok (next, change) =>
        while_loop 1 (set_valueUtility next (initial_self chain 1 0.01)) change 1
                   [DisplayValueFunction next 0; Print 0 change]
      end.
Proof.
  split_and!; [reflexivity| |].
  - exact (proj1 (C4_discount_factor_is_not_checked chain 0.01 0)).
  - exact (proj2 (proj2 (C4_discount_factor_is_not_checked chain 0.01 1)) eq_refl).
Defined.

(** C5 fails as it is written: [s2] is no state of the chain and has no
    entry in the policy, yet [getAction] returns an action for it. *)
Lemma C5_absent_state_gets_an_action :
  ∃ self out,
    __init__ 2 chain 0.9 0.01 = Some (Ok (self, out))
    ∧ policy self !! "s2" = None
    ∧ getAction self "s2" = Ok (Some "go").
Proof. eexists _, _. split_and!; vm_compute; reflexivity. Qed.

Lemma C5_getAction_computes_again_witness :
  __init__ 2 chain 0.9 0.01
  = Some (Ok (solved (__init__ 2 chain 0.9 0.01), console (__init__ 2 chain 0.9 0.01)))
  ∧ policy (solved (__init__ 2 chain 0.9 0.01)) !! "s0" = Some (Some "go")
  ∧ getAction (solved (__init__ 2 chain 0.9 0.01)) "s0" = Ok (Some "go").
Proof.
  assert (__init__ 2 chain 0.9 0.01
          = Some (Ok (solved (__init__ 2 chain 0.9 0.01),
                      console (__init__ 2 chain 0.9 0.01)))) as Hinit
    by (vm_compute; reflexivity).
  assert (policy (solved (__init__ 2 chain 0.9 0.01)) !! "s0" = Some (Some "go"))
    as Hpol by (vm_compute; reflexivity).
  split_and!; [exact Hinit|exact Hpol|].
  exact (proj1 (C5_getAction_computes_again 2 chain 0.9 0.01 _ _ Hinit)
               "s0" (Some "go") Hpol).
Defined.

(** C6 fails as it is written: the probabilities of the mapping of
    [halved_chain] add up to 0.5 and the constructor returns. *)
Lemma C6_halved_mapping_is_accepted :
  map_fold (λ _ p acc, acc + p)%float 0%float (transition halved_chain "s0" "go")
  = 0.5%float
  ∧ ∃ self out,
      __init__ 2 halved_chain 0.9 0.01 = Some (Ok (self, out))
      ∧ policy self !! "s0" = Some (Some "go").
Proof.
  split; [vm_compute; reflexivity|].
  eexists _, _. split; vm_compute; reflexivity.
Qed.

Lemma C6_transitions_are_not_validated_witness :
  total_transitions halved_chain
  ∧ (0.9 =? 0)%float = false
  ∧ (__init__ 2 halved_chain 0.9 0.01 = None
     ∨ ∃ self out, __init__ 2 halved_chain 0.9 0.01 = Some (Ok (self, out))).
Proof.
  assert (total_transitions halved_chain) as Htotal.
  { intros s a _ _ s' Hs'. simpl in Hs'.
    apply elem_of_cons in Hs' as [->|Hs']; [eexists; vm_compute; reflexivity|].
    apply list_elem_of_singleton in Hs' as ->. eexists; vm_compute; reflexivity. }
  split_and!; [exact Htotal|reflexivity|].
  exact (C6_transitions_are_not_validated 2 halved_chain 0.9 0.01 Htotal eq_refl).
Defined.

Lemma C7_loop_runs_while_change_exceeds_bound_witness :
  (0 <? 0.9)%float = true
  ∧ (0.9 <? 1)%float = true
  ∧ (0 <? 0.01)%float = true
  ∧ ∃ bound,
      stopping_bound (initial_self chain 0.9 0.01) = Ok bound
      ∧ is_nan bound = false.
Proof.
  split_and!; [reflexivity..|].
  destruct (C7_loop_runs_while_change_exceeds_bound
              (initial_self chain 0.9 0.01) eq_refl eq_refl eq_refl)
    as (bound & Hb & _ & Hn & _).
  exists bound. split; assumption.
Defined.

Lemma C8_final_states_hold_their_reward_witness :
  "s1" ∈ stateSet chain
  ∧ "s1" ∈ finalStateSet chain
  ∧ ∃ next change,
      sweep (initial_self chain 0.9 0.01) = Ok (next, change)
      ∧ next !! "s1" = Some 10%float.
Proof.
  assert ("s1" ∈ stateSet chain) as Hin by (simpl; set_solver).
  assert ("s1" ∈ finalStateSet chain) as Hfin by (simpl; set_solver).
  split_and!; [exact Hin|exact Hfin|].
  eexists _, _. split; [vm_compute; reflexivity|].
  refine (proj1 (C8_final_states_hold_their_reward chain "s1" Hin Hfin)
                (initial_self chain 0.9 0.01) _ 0%float eq_refl _).
  vm_compute. reflexivity.
Defined.

Lemma C9_sweep_reads_previous_snapshot_witness :
  ∃ next change,
    sweep (initial_self chain 0.9 0.01) = Ok (next, change)
    ∧ ∃ v, bellman_backup (initial_self chain 0.9 0.01) "s0" = Ok v
           ∧ next !! "s0" = Some v.
Proof.
  eexists _, _. split; [vm_compute; reflexivity|].
  refine (proj1 (C9_sweep_reads_previous_snapshot
                   (initial_self chain 0.9 0.01) _ 0%float _) "s0" _).
  - vm_compute. reflexivity.
  - simpl. set_solver.
Defined.

Lemma C10_getAction_agrees_with_policy_witness :
  __init__ 2 chain 0.9 0.01
  = Some (Ok (solved (__init__ 2 chain 0.9 0.01), console (__init__ 2 chain 0.9 0.01)))
  ∧ "s0" ∈ stateSet chain
  ∧ ∃ a, policy (solved (__init__ 2 chain 0.9 0.01)) !! "s0" = Some a
         ∧ getAction (solved (__init__ 2 chain 0.9 0.01)) "s0" = Ok a.
Proof.
  assert (__init__ 2 chain 0.9 0.01
          = Some (Ok (solved (__init__ 2 chain 0.9 0.01),
                      console (__init__ 2 chain 0.9 0.01)))) as Hinit
    by (vm_compute; reflexivity).
  assert ("s0" ∈ stateSet chain) as Hin by (simpl; set_solver).
  split_and!; [exact Hinit|exact Hin|].
  exact (C10_getAction_agrees_with_policy 2 chain 0.9 0.01 _ _ "s0" Hinit Hin).
Defined.

(** * More facts about binary64 numbers *)

Lemma ltb_nan_r x y : is_nan y = true → (x <? y)%float = false.
Proof.
  rewrite is_nan_true, FloatAxioms.ltb_spec. intros ->. unfold SFltb.
  by destruct (Prim2SF x).
Qed.

Lemma ltb_nan_l x y : is_nan x = true → (x <? y)%float = false.
Proof. rewrite is_nan_true, FloatAxioms.ltb_spec. by intros ->. Qed.

Lemma SFltb_SFleb_trans x y z :
  SFltb x y = true → SFleb y z = true → SFltb x z = true.
Proof.
  unfold SFleb, SFltb.
  sf_cases x; sf_cases y; simpl; try discriminate;
    sf_cases z; simpl; try discriminate; try reflexivity;
    intros; cmp_cases.
Qed.

Lemma ltb_leb_trans x y z :
  (x <? y)%float = true → (y <=? z)%float = true → (x <? z)%float = true.
Proof.
  rewrite !FloatAxioms.ltb_spec, FloatAxioms.leb_spec. apply SFltb_SFleb_trans.
Qed.

Lemma leb_ltb_ltb x y z :
  (x <=? y)%float = true → (y <? z)%float = true → (x <? z)%float = true.
Proof.
  rewrite !FloatAxioms.ltb_spec, FloatAxioms.leb_spec. apply SFleb_SFltb_trans.
Qed.

Lemma ltb_leb x y : (x <? y)%float = true → (x <=? y)%float = true.
Proof. rewrite FloatAxioms.ltb_spec, FloatAxioms.leb_spec. apply SFltb_SFleb. Qed.

Lemma ltb_trans x y z :
  (x <? y)%float = true → (y <? z)%float = true → (x <? z)%float = true.
Proof. intros Hxy Hyz. eapply leb_ltb_ltb; [by apply ltb_leb|done]. Qed.

Lemma ltb_asym x y : (x <? y)%float = true → (y <? x)%float = false.
Proof. intros Hxy. by apply leb_not_ltb, ltb_leb. Qed.

(** What is not above [y] is a NaN or is below any [z] above [y]. *)
Lemma not_above_then_below x y z :
  (y <? x)%float = false → (y <? z)%float = true →
  is_nan x = true ∨ (x <? z)%float = true.
Proof.
  intros Hyx Hyz. destruct (is_nan x) eqn:Hx; [by left|right].
  apply ltb_not_nan in Hyz as Hn. destruct Hn as [Hy _].
  eapply leb_ltb_ltb; [|done]. by apply not_ltb_leb.
Qed.

(** An absolute value that is a number is not below zero. *)
Lemma abs_nonneg x : is_nan (abs x) = false → (0 <=? abs x)%float = true.
Proof.
  rewrite is_nan_false, FloatAxioms.leb_spec, abs_spec.
  change (Prim2SF 0) with (S754_zero false).
  by sf_cases (Prim2SF x).
Qed.

(** A NaN discount factor or error rate makes the stopping bound a NaN. *)
Lemma bound_nan (γ ε : float) :
  is_nan γ = true ∨ is_nan ε = true → is_nan (ε * (1 - γ) / γ)%float = true.
Proof.
  rewrite !is_nan_true, div_spec, mul_spec, sub_spec.
  intros [-> | ->]; [|done].
  change (Prim2SF 1) with (S754_finite false 4503599627370496 (-52)).
  cbn [SF64sub SFsub]. by destruct (Prim2SF ε).
Qed.

(** Rounding a mantissa that is not negative keeps the sign. *)
Lemma binary_round_aux_cases s m e l :
  (0 ≤ m)%Z →
  binary_round_aux prec emax s m e l = S754_zero s
  ∨ (∃ m' e', binary_round_aux prec emax s m e l = S754_finite s m' e')
  ∨ binary_round_aux prec emax s m e l = S754_infinity s.
Proof.
  intros Hm. unfold binary_round_aux.
  pose proof (shr_fexp_nonneg m e l Hm) as H1.
  destruct (shr_fexp prec emax m e l) as [mrs' e']. simpl in H1.
  pose proof (shr_fexp_nonneg _ e' loc_Exact
                (round_nearest_even_nonneg _ (loc_of_shr_record mrs') H1)) as H2.
  destruct (shr_fexp prec emax _ e' loc_Exact) as [mrs'' e'']. simpl in H2.
  destruct (shr_m mrs''); [by left| |lia].
  destruct (e'' <=? emax - prec)%Z; eauto.
Qed.

Lemma plus_signed_not_below_zero x :
  plus_signed (Prim2SF x) → (x <? 0)%float = false.
Proof.
  rewrite FloatAxioms.ltb_spec. change (Prim2SF 0) with (S754_zero false).
  by intros [-> |[(m & e & ->)| ->]].
Qed.

(** For a discount factor in (0, 1) and a positive error rate, the stopping
    bound is not below zero. *)
Lemma bound_not_below_zero (γ ε : float) :
  (0 <? γ)%float = true → (γ <? 1)%float = true →
  (0 <? ε)%float = true →
  (ε * (1 - γ) / γ <? 0)%float = false.
Proof.
  intros Hγ0 Hγ1 Hε0. apply plus_signed_not_below_zero.
  destruct (pos_below_one γ Hγ0 Hγ1) as (mγ & eγ & Eγ).
  rewrite div_spec, mul_spec, sub_spec, Eγ.
  pose proof (Prim2SF_valid γ) as Hvalid. rewrite Eγ in Hvalid.
  rewrite FloatAxioms.ltb_spec, Eγ in Hγ1.
  assert (plus_signed (SF64mul (Prim2SF ε)
                               (SF64sub (Prim2SF 1) (S754_finite false mγ eγ))))
    as Hprod.
  { destruct (one_minus_pos mγ eγ Hvalid Hγ1) as [(m1 & e1 & ->)| ->],
             (pos_cases ε Hε0) as [(mε & eε & ->)| ->];
      try (by right; right).
    by apply (binary_round_aux_cases false). }
  destruct Hprod as [-> |[(m & e & ->)| ->]].
  - by left.
  - unfold SF64div, SFdiv.
    pose proof (SFdiv_core_binary_nonneg m e mγ eγ) as Hq.
    destruct (SFdiv_core_binary _ _ _ _ _ _) as [[q e'] l].
    by apply (binary_round_aux_cases false).
  - by right; right.
Qed.

(** Zeros. *)

Lemma zero_from_spec x : Prim2SF x = S754_zero false → x = 0%float.
Proof. intros Hx. by apply Prim2SF_inj. Qed.

Lemma is_finite_cases p :
  is_finite p = true →
  (∃ s, Prim2SF p = S754_zero s) ∨ (∃ s m e, Prim2SF p = S754_finite s m e).
Proof.
  unfold is_finite, is_infinity. intros Hf.
  apply negb_true_iff, orb_false_iff in Hf as [Hn Hi].
  apply is_nan_false in Hn.
  rewrite FloatAxioms.eqb_spec, abs_spec in Hi.
  change (Prim2SF infinity) with (S754_infinity false) in Hi.
  destruct (Prim2SF p) as [s|s| |s m e]; try done; eauto.
Qed.

(** Adding a finite number times [0.] to [0.] gives [0.]. *)
Lemma add_mul_zero p : is_finite p = true → (0 + p * 0)%float = 0%float.
Proof.
  intros Hp. apply zero_from_spec. rewrite add_spec, mul_spec.
  change (Prim2SF 0) with (S754_zero false).
  by destruct (is_finite_cases p Hp) as [[[] ->]|([] & m & e & ->)].
Qed.

(** A zero reward plus a positive finite discount factor times [0.] is
    [0.]. *)
Lemma zero_backup (r γ : float) :
  (r =? 0)%float = true →
  (0 <? γ)%float = true → (γ <? 1)%float = true →
  (r + γ * 0)%float = 0%float.
Proof.
  intros Hr Hγ0 Hγ1. apply zero_from_spec.
  destruct (pos_below_one γ Hγ0 Hγ1) as (mγ & eγ & Eγ).
  rewrite FloatAxioms.eqb_spec in Hr.
  rewrite add_spec, mul_spec, Eγ.
  change (Prim2SF 0) with (S754_zero false) in *.
  by destruct (Prim2SF r) as [[]|[]| |[] m e].
Qed.

(** * More facts about the loops *)

Section MoreFacts.
Context {State Action : Type} `{Countable State}.
Implicit Types (self : Agent State Action) (env : Environment State Action).
Implicit Types (s state : State) (V next : gmap State float).
Implicit Types (a : Action).

(** ** The best-action loop *)

Lemma best_invariant_step self state seen x acc acc' :
  best_invariant self state seen acc →
  (eau ← expected_action_utility self state x;
   if py_gt eau acc.2 then Ok (Some x, eau) else Ok (acc.1, acc.2)) = Ok acc' →
  best_invariant self state (seen ++ [x]) acc'.
Proof.
  destruct acc as [b u]. unfold best_invariant. cbn [fst snd].
  intros Hinv Hb. revert Hb.
  destruct (expected_action_utility self state x) as [e|?] eqn:Ex; [|done].
  rewrite bind_Ok. unfold py_gt.
  destruct (u <? e)%float eqn:Hgt; intros [= <-]; cbn [fst snd]; revert Hinv.
  - (* [x] becomes the best action *)
    destruct b as [a|].
    + intros (Ea & Hinf & l1 & l2 & -> & H1 & H2).
      split_and!; [done|by eapply ltb_trans|].
      exists (l1 ++ a :: l2), []. split_and!; [done| |intros a' Ha'; set_solver].
      intros a' [Ha'|[->|Ha']%elem_of_cons]%elem_of_app.
      * destruct (H1 a' Ha') as (u' & Eu' & [Hn|Hlt]); exists u';
          (split; [done|]); [by left|right; by eapply ltb_trans].
      * exists u. split; [done|]. by right.
      * destruct (H2 a' Ha') as (u' & Eu' & Hng). exists u'. split; [done|].
        by eapply not_above_then_below.
    + intros [-> Hall].
      split_and!; [done|done|].
      exists seen, []. split_and!; [done| |intros a' Ha'; set_solver].
      intros a' Ha'. destruct (Hall a' Ha') as (u' & Eu' & Hng).
      exists u'. split; [done|]. by eapply not_above_then_below.
  - (* the best action stays *)
    destruct b as [a|].
    + intros (Ea & Hinf & l1 & l2 & -> & H1 & H2).
      split_and!; [done..|].
      exists l1, (l2 ++ [x]). split_and!; [by rewrite <- app_assoc|done|].
      intros a' [Ha'| ->%list_elem_of_singleton]%elem_of_app; [auto|].
      by exists e.
    + intros [-> Hall]. split; [done|].
      intros a' [Ha'| ->%list_elem_of_singleton]%elem_of_app; [auto|].
      by exists e.
Qed.

Lemma actionMaximumExpectedUtility_invariant self state b u :
  actionMaximumExpectedUtility self state = Ok (b, u) →
  best_invariant self state (actionSet (environment self)) (b, u).
Proof.
  unfold actionMaximumExpectedUtility.
  apply (py_for_invariant _ (best_invariant self state)).
  - split; [done|]. intros a' Ha'. set_solver.
  - intros seen x [b0 u0] acc' Hinv _ Hb.
    by apply (best_invariant_step self state seen x (b0, u0)).
Qed.

(** A best-action computation that returns has computed the utility of
    every action. *)
Lemma actionMaximumExpectedUtility_Ok_all self state b u a :
  actionMaximumExpectedUtility self state = Ok (b, u) →
  a ∈ actionSet (environment self) →
  ∃ u', expected_action_utility self state a = Ok u'.
Proof.
  intros Hinv%actionMaximumExpectedUtility_invariant Ha.
  unfold best_invariant in Hinv. cbn [fst snd] in Hinv. destruct b as [a0|].
  - destruct Hinv as (E0 & _ & l1 & l2 & Hl & H1 & H2). rewrite Hl in Ha.
    apply elem_of_app in Ha as [Ha|[->|Ha]%elem_of_cons].
    + destruct (H1 a Ha) as (u' & ? & _). eauto.
    + eauto.
    + destruct (H2 a Ha) as (u' & ? & _). eauto.
  - destruct Hinv as [_ Hall]. destruct (Hall a Ha) as (u' & ? & _). eauto.
Qed.

(** ** Which entry was missing *)

Lemma expected_action_utility_raises_missing self state action e :
  expected_action_utility self state action = Raise e →
  covers (environment self) (valueUtility self) →
  ∃ s', s' ∈ stateSet (environment self)
        ∧ transition (environment self) state action !! s' = None.
Proof.
  intros (x & acc & Hx & Hb)%py_for_raises HV. cbv beta in Hb.
  exists x. split; [done|].
  destruct (py_getitem (transition _ _ _) x) as [p|e1] eqn:E1.
  - rewrite bind_Ok in Hb. destruct (HV x Hx) as [v Hv].
    apply py_getitem_Ok in Hv. by rewrite Hv in Hb.
  - by apply py_getitem_Raise in E1 as [? _].
Qed.

Lemma actionMaximumExpectedUtility_raises_missing self state e :
  actionMaximumExpectedUtility self state = Raise e →
  covers (environment self) (valueUtility self) →
  ∃ a s', a ∈ actionSet (environment self)
          ∧ s' ∈ stateSet (environment self)
          ∧ transition (environment self) state a !! s' = None.
Proof.
  intros (x & [b u] & Hx & Hb)%py_for_raises HV.
  destruct (expected_action_utility self state x) as [r|e'] eqn:E.
  - rewrite bind_Ok in Hb. by destruct (py_gt r u).
  - destruct (expected_action_utility_raises_missing _ _ _ _ E HV) as (s' & ? & ?).
    by exists x, s'.
Qed.

Lemma sweep_raises_missing self e :
  sweep self = Raise e →
  covers (environment self) (valueUtility self) →
  ∃ s a s', s ∈ stateSet (environment self)
            ∧ a ∈ actionSet (environment self)
            ∧ s' ∈ stateSet (environment self)
            ∧ transition (environment self) s a !! s' = None.
Proof.
  intros (x & [next mcu] & Hx & Hb)%py_for_raises HV. unfold sweep_body in Hb.
  destruct (bool_decide _); [done|].
  destruct (actionMaximumExpectedUtility self x) as [[a meu]|e'] eqn:E.
  - rewrite bind_Ok in Hb. destruct (HV x Hx) as [old Hold].
    apply py_getitem_Ok in Hold. rewrite Hold, bind_Ok in Hb.
    unfold py_getitem in Hb. rewrite lookup_insert_eq, bind_Ok in Hb.
    by destruct (py_gt _ _).
  - destruct (actionMaximumExpectedUtility_raises_missing _ _ _ E HV)
      as (a & s' & ? & ? & ?).
    by exists x, a, s'.
Qed.

Lemma build_policy_raises_missing self e :
  build_policy self = Raise e →
  covers (environment self) (valueUtility self) →
  ∃ s a s', s ∈ stateSet (environment self)
            ∧ a ∈ actionSet (environment self)
            ∧ s' ∈ stateSet (environment self)
            ∧ transition (environment self) s a !! s' = None.
Proof.
  intros (x & pol & Hx & Hb)%py_for_raises HV.
  destruct (actionMaximumExpectedUtility self x) as [[a meu]|e'] eqn:E; [done|].
  destruct (actionMaximumExpectedUtility_raises_missing _ _ _ E HV)
    as (a & s' & ? & ? & ?).
  by exists x, a, s'.
Qed.

Lemma while_loop_raises_missing fuel self change it out e :
  while_loop fuel self change it out = Some (Raise e) →
  covers (environment self) (valueUtility self) →
  (e = ZeroDivisionError ∧ (discountFactor self =? 0)%float = true)
  ∨ (e = KeyError
     ∧ (discountFactor self =? 0)%float = false
     ∧ ∃ s a s', s ∈ stateSet (environment self)
                 ∧ a ∈ actionSet (environment self)
                 ∧ s' ∈ stateSet (environment self)
                 ∧ transition (environment self) s a !! s' = None).
Proof.
  revert self change it out.
  induction fuel as [|fuel IH]; intros self change it out Hw HV; [done|].
  simpl in Hw. destruct (stopping_bound self) as [bound|e'] eqn:Hb.
  - destruct (py_gt change bound); [|done].
    destruct (sweep self) as [[next c]|e'] eqn:Hs.
    + apply IH in Hw; [done|]. apply (sweep_covers _ _ _ Hs).
    + injection Hw as <-. right.
      apply stopping_bound_Ok in Hb as [? _].
      split_and!; [by eapply sweep_raises|done|by eapply sweep_raises_missing].
  - injection Hw as <-. apply stopping_bound_Raise in Hb as [? ->]. by left.
Qed.

(** A loop that returns has evaluated its test: the discount factor is not
    zero (and the fuel neither). *)
Lemma while_loop_Ok_discount fuel self change it out r :
  while_loop fuel self change it out = Some (Ok r) →
  (discountFactor self =? 0)%float = false.
Proof.
  destruct fuel as [|fuel]; [done|]. simpl.
  destruct (stopping_bound self) as [bound|e'] eqn:Hb; [|done].
  intros _. by apply stopping_bound_Ok in Hb as [? _].
Qed.

(** ** The keys of the value function *)

Lemma while_loop_keys fuel self change it out self' it' out' :
  while_loop fuel self change it out = Some (Ok (self', it', out')) →
  (∀ s, is_Some (valueUtility self !! s) ↔ s ∈ stateSet (environment self)) →
  ∀ s, is_Some (valueUtility self' !! s) ↔ s ∈ stateSet (environment self).
Proof.
  revert self change it out.
  induction fuel as [|fuel IH]; intros self change it out Hw HV; [done|].
  simpl in Hw. destruct (stopping_bound self) as [bound|e]; [|done].
  destruct (py_gt change bound).
  - destruct (sweep self) as [[next c]|e] eqn:Hs; [|done].
    apply (IH _ _ _ _ Hw). simpl.
    apply sweep_spec in Hs as (Hin & Hout & _). intros s. split.
    + intros Hsome. destruct (decide (s ∈ stateSet (environment self))); [done|].
      rewrite Hout in Hsome by done. by destruct Hsome.
    + intros Hs. destruct (Hin s Hs) as (v & _ & ->). eauto.
  - by injection Hw as <- <- <-.
Qed.

(** ** The console *)

Lemma while_loop_console fuel self change it out self' it' out' :
  while_loop fuel self change it out = Some (Ok (self', it', out')) →
  ∃ n tr,
    it' = it + n
    ∧ out' = out ++ tr
    ∧ length tr = 2 * n
    ∧ (∃ c, after_sweeps n self change = Ok (self', c))
    ∧ ∀ i, i < n →
           ∃ ag c,
             after_sweeps (S i) self change = Ok (ag, c)
             ∧ tr !! (2 * i) = Some (DisplayValueFunction (valueUtility ag) (it + i))
             ∧ tr !! (2 * i + 1) = Some (Print (it + i) c).
Proof.
  revert self change it out.
  induction fuel as [|fuel IH]; intros self change it out Hw; [done|].
  simpl in Hw. destruct (stopping_bound self) as [bound|e]; [|done].
  destruct (py_gt change bound).
  - destruct (sweep self) as [[next c1]|e] eqn:Hs; [|done].
    apply IH in Hw as (n & tr & -> & -> & Hlen & [cn Hn] & Hall).
    exists (S n), ([DisplayValueFunction next it; Print it c1] ++ tr).
    split_and!.
    + lia.
    + by rewrite <- app_assoc.
    + simpl. lia.
    + exists cn. simpl. by rewrite Hs, bind_Ok.
    + intros [|i] Hi.
      * exists (set_valueUtility next self), c1. simpl.
        rewrite Hs, bind_Ok, Nat.add_0_r. done.
      * destruct (Hall i) as (ag & c & Ha & Hd & Hp); [lia|].
        exists ag, c. split_and!.
        -- simpl. simpl in Ha. by rewrite Hs, bind_Ok.
        -- replace (2 * S i) with (S (S (2 * i))) by lia.
           replace (it + S i) with (S it + i) by lia. exact Hd.
        -- replace (2 * S i + 1) with (S (S (2 * i + 1))) by lia.
           replace (it + S i) with (S it + i) by lia. exact Hp.
  - injection Hw as <- <- <-. exists 0, [].
    split_and!; [lia|by rewrite app_nil_r|done|by exists change|intros i Hi; lia].
Qed.

(** ** The change of a sweep *)

Lemma sweep_change_nonneg self next change :
  sweep self = Ok (next, change) → (0 <=? change)%float = true.
Proof.
  intros (_ & _ & Hn & Hc & _)%sweep_spec.
  destruct Hc as [-> |(s & old & new & _ & _ & _ & _ & ->)]; [done|].
  by apply abs_nonneg.
Qed.

(** With a stopping bound below zero the loop never ends by itself. *)
Lemma while_loop_never_returns fuel self change it out bound :
  stopping_bound self = Ok bound →
  (bound <? 0)%float = true →
  (bound <? change)%float = true →
  while_loop fuel self change it out = None
  ∨ ∃ e, while_loop fuel self change it out = Some (Raise e).
Proof.
  intros Hb Hneg. revert self change it out Hb.
  induction fuel as [|fuel IH]; intros self change it out Hb Hgt; [by left|].
  simpl. rewrite Hb. unfold py_gt. rewrite Hgt.
  destruct (sweep self) as [[next c]|e] eqn:Hs; [|right; by exists e].
  apply IH; [done|].
  eapply ltb_leb_trans; [exact Hneg|]. by eapply sweep_change_nonneg.
Qed.

(** ** Loops with the same rounds *)

Lemma py_for_ext {A B} (f g : B → A → result B) (l : list A) (acc : B) :
  (∀ acc x, x ∈ l → f acc x = g acc x) →
  py_for l f acc = py_for l g acc.
Proof.
  revert acc. induction l as [|x l IH]; intros acc Hfg; [done|].
  simpl. rewrite Hfg by set_solver.
  destruct (g acc x) as [acc'|e]; [|done].
  rewrite !bind_Ok. apply IH. intros acc0 y Hy. apply Hfg. set_solver.
Qed.

(** ** A value function of zeros *)

Lemma weighted_sum_zero (T V : gmap State float) (l : list State) :
  (∀ s', s' ∈ l → ∃ p, T !! s' = Some p ∧ is_finite p = true) →
  (∀ s', s' ∈ l → V !! s' = Some 0%float) →
  weighted_sum T V l = 0%float.
Proof.
  unfold weighted_sum. induction l as [|x l IH]; intros HT HV; [done|].
  simpl. destruct (HT x) as (p & -> & Hp); [set_solver|].
  rewrite HV by set_solver. simpl. rewrite (add_mul_zero p Hp).
  apply IH; intros s' Hs'; [apply HT|apply HV]; set_solver.
Qed.

Lemma expected_action_utility_zero self state action :
  (∀ s', s' ∈ stateSet (environment self) →
         ∃ p, transition (environment self) state action !! s' = Some p
              ∧ is_finite p = true) →
  (∀ s', s' ∈ stateSet (environment self) → valueUtility self !! s' = Some 0%float) →
  expected_action_utility self state action = Ok 0%float.
Proof.
  intros HT HV.
  destruct (expected_action_utility_returns self state action) as [r Hr].
  { intros s' Hs'. destruct (HT s' Hs') as (p & -> & _). eauto. }
  { intros s' Hs'. rewrite (HV s' Hs'). eauto. }
  rewrite Hr. apply expected_action_utility_Ok in Hr as (_ & _ & ->).
  by rewrite weighted_sum_zero.
Qed.

Lemma actionMaximumExpectedUtility_zero self state :
  actionSet (environment self) ≠ [] →
  (∀ a, a ∈ actionSet (environment self) →
        expected_action_utility self state a = Ok 0%float) →
  ∃ a, a ∈ actionSet (environment self)
       ∧ actionMaximumExpectedUtility self state = Ok (Some a, 0%float).
Proof.
  intros Hne Hzero.
  destruct (actionMaximumExpectedUtility self state) as [[b u]|e] eqn:E.
  - pose proof (actionMaximumExpectedUtility_invariant _ _ _ _ E) as Hinv.
    unfold best_invariant in Hinv. cbn [fst snd] in Hinv.
    destruct b as [a0|].
    + destruct Hinv as (E0 & _ & l1 & l2 & Hl & _).
      assert (a0 ∈ actionSet (environment self)) as Hin by (rewrite Hl; set_solver).
      rewrite (Hzero a0 Hin) in E0. injection E0 as <-. by exists a0.
    + destruct Hinv as [_ Hall].
      destruct (actionSet (environment self)) as [|a0 l] eqn:El; [done|].
      destruct (Hall a0) as (u' & Eu' & Hgt); [set_solver|].
      rewrite Hzero in Eu' by set_solver. injection Eu' as <-. done.
  - exfalso. apply py_for_raises in E as (x & [b u] & Hx & Hb).
    rewrite (Hzero x Hx), bind_Ok in Hb. by destruct (py_gt _ _).
Qed.

End MoreFacts.

(** * More properties of the class *)

Section MoreProperties.
Context {State Action : Type} `{Countable State}.
Implicit Types (self : Agent State Action) (env : Environment State Action).
Implicit Types (s state : State) (V next : gmap State float).
Implicit Types (a : Action).

Lemma actionMaximumExpectedUtility_greedy self state a u :
  actionMaximumExpectedUtility self state = Ok (Some a, u) →
  a ∈ actionSet (environment self)
  ∧ expected_action_utility self state a = Ok u
  ∧ is_nan u = false
  ∧ (neg_infinity <? u)%float = true
  ∧ ∀ a', a' ∈ actionSet (environment self) →
          ∃ u', expected_action_utility self state a' = Ok u'
                ∧ py_gt u' u = false.
Proof.
  intros Hinv%actionMaximumExpectedUtility_invariant.
  unfold best_invariant in Hinv. cbn [fst snd] in Hinv.
  destruct Hinv as (Ea & Hinf & l1 & l2 & Hl & H1 & H2).
  pose proof (ltb_not_nan _ _ Hinf) as [_ Hnan].
  split_and!; [rewrite Hl; set_solver|done..|].
  intros a' Ha'. rewrite Hl in Ha'. unfold py_gt.
  apply elem_of_app in Ha' as [Ha'|[->|Ha']%elem_of_cons].
  - destruct (H1 a' Ha') as (u' & Eu' & [Hn|Hlt]); exists u'; (split; [done|]).
    + by apply ltb_nan_r.
    + by apply ltb_asym.
  - exists u. split; [done|]. by apply leb_not_ltb, leb_refl.
  - by apply H2.
Qed.

(** X1.  The action that [actionMaximumExpectedUtility] returns is one of
    [actionSet], the utility returned with it is its expected utility, a
    number above [-inf], and no action of [actionSet] has an expected
    utility above it. *)
Theorem X1_best_action_is_greedy self state a u :
  actionMaximumExpectedUtility self state = Ok (Some a, u) →
  a ∈ actionSet (environment self)
  ∧ expected_action_utility self state a = Ok u
  ∧ is_nan u = false
  ∧ (neg_infinity <? u)%float = true
  ∧ ∀ a', a' ∈ actionSet (environment self) →
          ∃ u', expected_action_utility self state a' = Ok u'
                ∧ py_gt u' u = false.
Proof. apply actionMaximumExpectedUtility_greedy. Qed.

(** X2.  Among actions of equal expected utility the first of [actionSet]
    wins: every action that comes before the returned one has an expected
    utility strictly below the returned one (or a NaN). *)
Theorem X2_first_best_action_wins self state a u :
  actionMaximumExpectedUtility self state = Ok (Some a, u) →
  ∃ l1 l2,
    actionSet (environment self) = l1 ++ a :: l2
    ∧ ∀ a', a' ∈ l1 →
            ∃ u', expected_action_utility self state a' = Ok u'
                  ∧ (is_nan u' = true ∨ (u' <? u)%float = true).
Proof.
  intros Hinv%actionMaximumExpectedUtility_invariant.
  unfold best_invariant in Hinv. cbn [fst snd] in Hinv.
  destruct Hinv as (_ & _ & l1 & l2 & Hl & H1 & _).
  by exists l1, l2.
Qed.

(** X3.  [actionMaximumExpectedUtility] returns [None] as the action only
    together with [-inf], and it does so exactly when the expected utility of
    every action is computed and none is above [-inf] (each is [-inf] or a
    NaN, or there is no action). *)
Theorem X3_no_best_action self state :
  (∀ u, actionMaximumExpectedUtility self state = Ok (None, u) → u = neg_infinity)
  ∧ (actionMaximumExpectedUtility self state = Ok (None, neg_infinity)
     ↔ ∀ a', a' ∈ actionSet (environment self) →
             ∃ u', expected_action_utility self state a' = Ok u'
                   ∧ py_gt u' neg_infinity = false).
Proof.
  split; [|split].
  - intros u Hinv%actionMaximumExpectedUtility_invariant. by destruct Hinv.
  - intros Hinv%actionMaximumExpectedUtility_invariant. by destruct Hinv.
  - intros Hall. unfold actionMaximumExpectedUtility.
    destruct (py_for_returns
                (λ '(best_action, best_action_utility) action,
                   eau ← expected_action_utility self state action;
                   if py_gt eau best_action_utility
                   then Ok (Some action, eau)
                   else Ok (best_action, best_action_utility))
                (λ acc, acc = (None, neg_infinity))
                (actionSet (environment self)) (None, neg_infinity))
      as (r & -> & ->); [done| |done].
    intros x acc Hx ->. destruct (Hall x Hx) as (u' & -> & Hgt).
    rewrite bind_Ok, Hgt. eauto.
Qed.

(** X4.  The policy built by the constructor is greedy for the final value
    function: an action stored for a state is one of [actionSet] and no
    action has an expected utility, under the final [valueUtility], above
    that of the stored one. *)
Theorem X4_policy_is_greedy fuel env γ ε self out s a :
  __init__ fuel env γ ε = Some (Ok (self, out)) →
  policy self !! s = Some (Some a) →
  s ∈ stateSet env
  ∧ a ∈ actionSet env
  ∧ ∃ u, expected_action_utility self s a = Ok u
         ∧ ∀ a', a' ∈ actionSet env →
                 ∃ u', expected_action_utility self s a' = Ok u'
                       ∧ py_gt u' u = false.
Proof.
  intros (self1 & it & pol & Hw & Hp & ->)%init_Ok Hpol. simpl in Hpol.
  apply while_loop_Ok in Hw as (He & _). simpl in He.
  apply build_policy_Ok in Hp as [Hin Hout]. rewrite He in Hin, Hout.
  destruct (decide (s ∈ stateSet env)) as [Hs|Hs];
    [|by rewrite (Hout s Hs) in Hpol].
  destruct (Hin s Hs) as (b & Hget & Hl).
  rewrite Hl in Hpol. injection Hpol as ->.
  unfold getAction in Hget.
  destruct (actionMaximumExpectedUtility self1 s) as [[b u]|e] eqn:E; [|done].
  rewrite bind_Ok in Hget. injection Hget as ->.
  apply actionMaximumExpectedUtility_greedy in E as (Ha & Eu & _ & _ & Hall).
  rewrite He in Ha, Hall.
  split_and!; [done..|]. by exists u.
Qed.

(** X5.  The exceptions of the constructor.  It raises [ZeroDivisionError]
    only for a discount factor equal to zero, and [KeyError] only for a
    discount factor that is not zero and an environment in which the mapping
    of some state and action of the environment lacks a state of
    [stateSet]. *)
Theorem X5_constructor_exceptions fuel env γ ε e :
  __init__ fuel env γ ε = Some (Raise e) →
  (e = ZeroDivisionError ∧ (γ =? 0)%float = true)
  ∨ (e = KeyError
     ∧ (γ =? 0)%float = false
     ∧ ∃ s a s', s ∈ stateSet env ∧ a ∈ actionSet env ∧ s' ∈ stateSet env
                 ∧ transition env s a !! s' = None).
Proof.
  unfold __init__.
  destruct (while_loop fuel (initial_self env γ ε) infinity 0 [])
    as [[[[self1 it] out1]|e1]|] eqn:Hw; [| |done].
  - intros Hb. right.
    pose proof (while_loop_Ok_discount _ _ _ _ _ _ Hw) as Hγ. simpl in Hγ.
    apply while_loop_Ok in Hw as (He & _ & _ & _ & Hc & _). simpl in He, Hc.
    specialize (Hc (zero_valueUtility_covers env)).
    destruct (build_policy self1) as [pol|e2] eqn:Hp; [done|].
    rewrite bind_Raise in Hb. injection Hb as <-.
    pose proof (build_policy_raises _ _ Hp) as ->.
    apply build_policy_raises_missing in Hp; rewrite He in *; done.
  - intros [= ->].
    apply while_loop_raises_missing in Hw; [done|].
    apply zero_valueUtility_covers.
Qed.

(** X6.  After a construction that returned, the object holds the
    environment and the two parameters it was given, and [valueUtility] and
    [policy] both have exactly the states of [stateSet] as keys. *)
Theorem X6_keys_are_the_states fuel env γ ε self out :
  __init__ fuel env γ ε = Some (Ok (self, out)) →
  environment self = env
  ∧ discountFactor self = γ
  ∧ maximumErrorRate self = ε
  ∧ ∀ s, (is_Some (valueUtility self !! s) ↔ s ∈ stateSet env)
         ∧ (is_Some (policy self !! s) ↔ s ∈ stateSet env).
Proof.
  intros (self1 & it & pol & Hw & Hp & ->)%init_Ok. simpl.
  pose proof (while_loop_keys _ _ _ _ _ _ _ _ Hw) as Hkeys.
  apply while_loop_Ok in Hw as (He & Hγ & Hε & _). simpl in *.
  split_and!; [done..|]. intros s. split.
  - apply Hkeys. intros s'. rewrite zero_valueUtility_lookup.
    case_decide; [|split; [intros []|]]; naive_solver.
  - apply build_policy_Ok in Hp as [Hin Hout]. rewrite He in Hin, Hout.
    destruct (decide (s ∈ stateSet env)) as [Hs|Hs].
    + destruct (Hin s Hs) as (b & _ & ->). naive_solver.
    + rewrite (Hout s Hs). split; [intros []|]; naive_solver.
Qed.

(** X7.  What a construction that returned has written on the console: for
    the [n] sweeps it ran, numbered from 0, one call of
    [displayValueFunction] with the value function that sweep produced and
    its number, followed by one [print] of the number and of the change of
    that sweep; nothing else.  The value function of the object is the one
    after the [n] sweeps. *)
Theorem X7_console_protocol fuel env γ ε self out :
  __init__ fuel env γ ε = Some (Ok (self, out)) →
  ∃ n self1 c,
    after_sweeps n (initial_self env γ ε) infinity = Ok (self1, c)
    ∧ valueUtility self = valueUtility self1
    ∧ length out = 2 * n
    ∧ ∀ i, i < n →
           ∃ ag ci,
             after_sweeps (S i) (initial_self env γ ε) infinity = Ok (ag, ci)
             ∧ out !! (2 * i) = Some (DisplayValueFunction (valueUtility ag) i)
             ∧ out !! (2 * i + 1) = Some (Print i ci).
Proof.
  intros (self1 & it & pol & Hw & Hp & ->)%init_Ok.
  apply while_loop_console in Hw as (n & tr & _ & Hout & Hlen & [c Hc] & Hall).
  simpl in Hout. subst tr.
  exists n, self1, c. split_and!; [done..|].
  intros i Hi. destruct (Hall i Hi) as (ag & ci & Ha & H1 & H2).
  by exists ag, ci.
Qed.

(** X8.  When the stopping bound [maximumErrorRate * (1 - discountFactor) /
    discountFactor] evaluates below zero (a negative discount factor with a
    positive error rate, for one), the constructor never returns an object:
    the change of a sweep is never below zero, so the loop test holds for
    ever, unless an exception ends the construction. *)
Theorem X8_bound_below_zero_never_returns fuel env γ ε :
  (ε * (1 - γ) / γ <? 0)%float = true →
  __init__ fuel env γ ε = None
  ∨ ∃ e, __init__ fuel env γ ε = Some (Raise e).
Proof.
  intros Hneg. unfold __init__.
  destruct (stopping_bound (initial_self env γ ε)) as [bound|e] eqn:Hb.
  - pose proof Hb as Hb'. apply stopping_bound_Ok in Hb' as [Hγ ->].
    simpl in Hneg.
    destruct (while_loop_never_returns fuel (initial_self env γ ε)
                infinity 0 [] _ Hb Hneg) as [->|[e ->]].
    + by apply ltb_trans with 0%float.
    + by left.
    + right. by exists e.
  - destruct fuel as [|fuel]; [by left|]. right. exists e.
    cbn [while_loop]. by rewrite Hb.
Qed.

(** X9.  A discount factor or an error rate that is a NaN makes the loop
    test false at once: no sweep is run, nothing is written on the console
    and the policy is built from the all-zero value function. *)
Theorem X9_nan_parameters_skip_the_loop fuel env γ ε :
  is_nan γ = true ∨ is_nan ε = true →
  (γ =? 0)%float = false →
  __init__ (S fuel) env γ ε
  = Some (pol ← build_policy (initial_self env γ ε);
          Ok (set_policy pol (initial_self env γ ε), [])).
Proof.
  intros Hnan Hγ. unfold __init__.
  assert (stopping_bound (initial_self env γ ε) = Ok (ε * (1 - γ) / γ)%float)
    as Hb by by apply stopping_bound_Ok.
  cbn [while_loop]. rewrite Hb. unfold py_gt.
  by rewrite (ltb_nan_l _ infinity (bound_nan γ ε Hnan)).
Qed.

(** X10.  A sweep never reads the transition mapping of a final state: two
    environments whose [transition] methods agree on the states that are not
    final give the same sweep, exceptions included. *)
Theorem X10_sweep_skips_final_state_mappings self
    (T : State → Action → gmap State float) :
  (∀ s a, s ∈ stateSet (environment self) →
          s ∉ finalStateSet (environment self) →
          a ∈ actionSet (environment self) →
          T s a = transition (environment self) s a) →
  sweep (with_transition T self) = sweep self.
Proof.
  intros HT. unfold sweep. simpl. apply py_for_ext.
  intros [next change] s Hs. unfold sweep_body. simpl.
  case_bool_decide as Hfinal; [done|].
  assert (actionMaximumExpectedUtility (with_transition T self) s
          = actionMaximumExpectedUtility self s) as ->; [|done].
  unfold actionMaximumExpectedUtility. simpl. apply py_for_ext.
  intros [b u] a Ha.
  assert (expected_action_utility (with_transition T self) s a
          = expected_action_utility self s a) as ->; [|done].
  unfold expected_action_utility. simpl. by rewrite HT.
Qed.

(** X11.  The constructor, unlike a sweep, reads the mapping of every state,
    final or not, and every action when it builds the policy: a construction
    that returned implies that every mapping of the environment has an entry
    for every state of [stateSet]. *)
Theorem X11_construction_reads_every_mapping fuel env γ ε self out :
  __init__ fuel env γ ε = Some (Ok (self, out)) →
  total_transitions env.
Proof.
  intros (self1 & it & pol & Hw & Hp & ->)%init_Ok.
  apply while_loop_Ok in Hw as (He & _). simpl in He.
  apply build_policy_Ok in Hp as [Hin _]. rewrite He in Hin.
  intros s a Hs Ha. destruct (Hin s Hs) as (b & Hget & _).
  unfold getAction in Hget.
  destruct (actionMaximumExpectedUtility self1 s) as [[b' u]|e] eqn:E; [|done].
  destruct (actionMaximumExpectedUtility_Ok_all self1 s b' u a E) as [u' Hu'];
    [by rewrite He|].
  apply expected_action_utility_Ok in Hu' as (Hc & _). by rewrite He in Hc.
Qed.

(** X12.  With rewards equal to zero outside the final states, the
    constructor stops after one sweep at most, whatever the rewards of the
    final states are, and leaves the value 0 to every state that is not
    final: the first sweep reads the all-zero initial values, final states
    included, so that nothing changes among the states that are counted. *)
Theorem X12_zero_rewards_stop_after_one_sweep fuel env γ ε :
  (0 <? γ)%float = true → (γ <? 1)%float = true →
  (0 <? ε)%float = true →
  total_transitions env →
  actionSet env ≠ [] →
  (∀ s, s ∈ stateSet env → s ∉ finalStateSet env →
        (reward env s =? 0)%float = true) →
  (∀ s a s' p, s ∈ stateSet env → s ∉ finalStateSet env →
               a ∈ actionSet env → s' ∈ stateSet env →
               transition env s a !! s' = Some p → is_finite p = true) →
  ∃ self out,
    __init__ (S (S fuel)) env γ ε = Some (Ok (self, out))
    ∧ length out ≤ 2
    ∧ ∀ s, s ∈ stateSet env → s ∉ finalStateSet env →
           valueUtility self !! s = Some 0%float.
Proof.
  intros Hγ0 Hγ1 Hε Htot Hact Hrew Hfin.
  destruct (bound_is_a_number γ ε Hγ0 Hγ1 Hε) as [Hγ Hnan].
  pose proof (bound_not_below_zero γ ε Hγ0 Hγ1 Hε) as Hnb.
  assert (∀ V, stopping_bound (set_valueUtility V (initial_self env γ ε))
               = Ok (ε * (1 - γ) / γ)%float) as Hb
    by (intros V; by apply stopping_bound_Ok).
  assert (stopping_bound (initial_self env γ ε) = Ok (ε * (1 - γ) / γ)%float)
    as Hb0 by by apply stopping_bound_Ok.
  assert (∀ s, s ∈ stateSet env →
               zero_valueUtility env !! s = Some 0%float) as Hzero.
  { intros s Hs. rewrite zero_valueUtility_lookup. by rewrite decide_True. }
  unfold __init__. cbn [while_loop]. rewrite Hb0.
  destruct (py_gt infinity (ε * (1 - γ) / γ)) eqn:Hgt.
  - destruct (sweep_returns (initial_self env γ ε)) as (next & change & Hs);
      [apply zero_valueUtility_covers|done|].
    rewrite Hs.
    pose proof (sweep_spec _ _ _ Hs) as (Hnext & _ & Hmax).
    assert (∀ s, s ∈ stateSet env → s ∉ finalStateSet env →
                 bellman_backup (initial_self env γ ε) s = Ok 0%float) as Hback.
    { intros s Hs1 Hs2. unfold bellman_backup.
      rewrite bool_decide_eq_false_2 by done.
      destruct (actionMaximumExpectedUtility_zero (initial_self env γ ε) s)
        as (a & Ha & ->); [done| |].
      - intros a Ha. apply expected_action_utility_zero; [|done].
        intros s' Hs'. destruct (Htot s a Hs1 Ha s' Hs') as [p Hp].
        exists p. split; [done|]. exact (Hfin s a s' p Hs1 Hs2 Ha Hs' Hp).
      - rewrite bind_Ok. f_equal. apply zero_backup; [|done..].
        by apply Hrew. }
    assert (∀ s, s ∈ stateSet env → s ∉ finalStateSet env →
                 next !! s = Some 0%float) as Hnext0.
    { intros s Hs1 Hs2. destruct (Hnext s Hs1) as (v & Hv & ->).
      rewrite (Hback s Hs1 Hs2) in Hv. by injection Hv as <-. }
    assert (change = 0%float) as ->.
    { destruct Hmax as (_ & [->|(s & old & new & Hs1 & Hs2 & Hold & Hnew & ->)] & _);
        [done|].
      cbn [initial_self valueUtility environment] in Hold, Hs1, Hs2.
      rewrite (Hzero s Hs1) in Hold. injection Hold as <-.
      rewrite (Hnext0 s Hs1 Hs2) in Hnew. by injection Hnew as <-. }
    rewrite Hb. unfold py_gt at 1. rewrite Hnb.
    destruct (build_policy_returns (set_valueUtility next (initial_self env γ ε)))
      as [pol Hpol]; [by apply sweep_covers in Hs|done|].
    rewrite Hpol, bind_Ok. eexists _, _. split; [reflexivity|].
    split; [simpl; lia|done].
  - destruct (build_policy_returns (initial_self env γ ε)) as [pol Hpol];
      [apply zero_valueUtility_covers|done|].
    rewrite Hpol, bind_Ok. eexists _, _. split; [reflexivity|].
    split; [simpl; lia|]. intros s Hs1 _. by apply Hzero.
Qed.

Lemma init_final_value fuel env γ ε self out s :
  __init__ fuel env γ ε = Some (Ok (self, out)) →
  s ∈ stateSet env → s ∈ finalStateSet env →
  valueUtility self !! s
  = Some (match out with [] => 0%float | _ => reward env s end).
Proof.
  intros (self1 & it & pol & Hw & Hp & ->)%init_Ok Hs Hfinal.
  cbn [set_policy valueUtility].
  pose proof (while_loop_Ok _ _ _ _ _ _ _ _ Hw) as (_ & _ & _ & _ & _ & Hdisp).
  apply while_loop_console in Hw as (n & tr & _ & Hout & Hlen & [c Hc] & Hall).
  simpl in Hout. subst tr. destruct n as [|n].
  - destruct out; [|done]. injection Hc as <- _.
    cbn [initial_self valueUtility]. rewrite zero_valueUtility_lookup.
    by rewrite decide_True.
  - destruct (Hall n) as (ag & ci & Ha & H1 & _); [lia|].
    rewrite Hc in Ha. injection Ha as <- <-.
    destruct out as [|ev out]; [done|].
    apply list_elem_of_lookup_2, Hdisp in H1
      as [[]%not_elem_of_nil|(ag & c' & He & Hsw)].
    apply sweep_spec in Hsw as (Hnext & _). rewrite He in Hnext.
    destruct (Hnext s Hs) as (v & Hv & ->).
    unfold bellman_backup in Hv. rewrite He in Hv.
    rewrite bool_decide_eq_true_2 in Hv by done. by injection Hv as <-.
Qed.

(** X13.  The value that the returned object holds for a final state of
    [stateSet]: its reward when at least one sweep ran (something was written
    on the console), and the initial 0 when none did. *)
Theorem X13_value_of_a_final_state fuel env γ ε self out s :
  __init__ fuel env γ ε = Some (Ok (self, out)) →
  s ∈ stateSet env → s ∈ finalStateSet env →
  valueUtility self !! s
  = Some (match out with [] => 0%float | _ => reward env s end).
Proof. apply init_final_value. Qed.

(** X14.  When the stopping bound is below [+inf], the first loop test holds
    and a construction that returned ran at least one sweep: the console
    shows it and every final state of [stateSet] holds its reward. *)
Theorem X14_finite_bound_runs_a_sweep fuel env γ ε self out :
  (ε * (1 - γ) / γ <? infinity)%float = true →
  __init__ fuel env γ ε = Some (Ok (self, out)) →
  2 ≤ length out
  ∧ ∀ s, s ∈ stateSet env → s ∈ finalStateSet env →
         valueUtility self !! s = Some (reward env s).
Proof.
  intros Hlt Hinit.
  assert (2 ≤ length out) as Hlen.
  { apply init_Ok in Hinit as (self1 & it & pol & Hw & _ & _).
    pose proof (while_loop_Ok_discount _ _ _ _ _ _ Hw) as Hγ.
    destruct fuel as [|fuel]; [done|]. cbn [while_loop] in Hw.
    assert (stopping_bound (initial_self env γ ε) = Ok (ε * (1 - γ) / γ)%float)
      as Hb by by apply stopping_bound_Ok.
    rewrite Hb in Hw. unfold py_gt at 1 in Hw. rewrite Hlt in Hw.
    destruct (sweep (initial_self env γ ε)) as [[next change]|e]; [|done].
    apply while_loop_console in Hw as (n & tr & _ & -> & _).
    rewrite !length_app. simpl. lia. }
  split; [done|]. intros s Hs Hfinal.
  rewrite (init_final_value _ _ _ _ _ _ s Hinit Hs Hfinal).
  destruct out; [simpl in Hlen; lia|done].
Qed.

Lemma py_for_raises_at {A B} (f : B → A → result B) (l : list A) (acc : B) (x : A) :
  x ∈ l → (∀ acc', ∃ e, f acc' x = Raise e) → ∃ e, py_for l f acc = Raise e.
Proof.
  intros Hx Hf. revert acc. induction l as [|y l IH]; intros acc.
  - by apply elem_of_nil in Hx.
  - simpl. destruct (f acc y) as [acc'|e] eqn:E; [|by exists e].
    rewrite bind_Ok. apply elem_of_cons in Hx as [->|Hx]; [|by apply IH].
    destruct (Hf acc) as [e He]. congruence.
Qed.

(** X15.  On an object whose value function has an entry for every state
    of [stateSet] (every constructed object), [getAction] raises for a state
    exactly when the mapping of that state and some action of [actionSet]
    lacks a state of [stateSet]; the exception is [KeyError].  The state
    itself need not be one of [stateSet]. *)
Theorem X15_getAction_raises_on_a_missing_entry self state :
  covers (environment self) (valueUtility self) →
  (getAction self state = Raise KeyError
   ↔ ∃ a s', a ∈ actionSet (environment self)
             ∧ s' ∈ stateSet (environment self)
             ∧ transition (environment self) state a !! s' = None)
  ∧ ∀ e, getAction self state = Raise e → e = KeyError.
Proof.
  intros Hcov.
  assert (∀ e, getAction self state = Raise e →
               actionMaximumExpectedUtility self state = Raise e) as Hget.
  { unfold getAction. intros e.
    destruct (actionMaximumExpectedUtility self state) as [[b u]|e'];
      [rewrite bind_Ok|rewrite bind_Raise]; congruence. }
  split; [split|].
  - intros Hr%Hget. by eapply actionMaximumExpectedUtility_raises_missing.
  - intros (a & s' & Ha & Hs' & Hnone).
    destruct (py_for_raises_at
                (λ '(best_action, best_action_utility) action,
                   eau ← expected_action_utility self state action;
                   if py_gt eau best_action_utility
                   then Ok (Some action, eau)
                   else Ok (best_action, best_action_utility))
                (actionSet (environment self)) (None, neg_infinity) a Ha)
      as [e He].
    { intros [b u].
      destruct (py_for_raises_at
                  (λ expected_action_utility next_state,
                     p ← py_getitem (transition (environment self) state a) next_state;
                     v ← py_getitem (valueUtility self) next_state;
                     Ok (expected_action_utility + p * v)%float)
                  (stateSet (environment self)) 0%float s' Hs') as [e He].
      { intros acc'. exists KeyError. unfold py_getitem. by rewrite Hnone. }
      exists e. unfold expected_action_utility. by rewrite He. }
    unfold getAction, actionMaximumExpectedUtility. rewrite He.
    by rewrite (actionMaximumExpectedUtility_raises self state e He).
  - intros e Hr%Hget. by eapply actionMaximumExpectedUtility_raises.
Qed.

End MoreProperties.

(** * The scenarios, run on the further properties *)

Lemma chain_total : total_transitions chain.
Proof.
  intros s a _ _ s' Hs'. simpl in Hs'.
  apply elem_of_cons in Hs' as [->|Hs']; [eexists; vm_compute; reflexivity|].
  apply list_elem_of_singleton in Hs' as ->. eexists; vm_compute; reflexivity.
Qed.

Lemma chain_returns :
  __init__ 2 chain 0.9 0.01
  = Some (Ok (solved (__init__ 2 chain 0.9 0.01), console (__init__ 2 chain 0.9 0.01))).
Proof. vm_compute; reflexivity. Qed.

Lemma X1_best_action_is_greedy_witness :
  actionMaximumExpectedUtility fork_self "s0" = Ok (Some "right", 10%float)
  ∧ "right" ∈ actionSet (environment fork_self)
  ∧ expected_action_utility fork_self "s0" "right" = Ok 10%float
  ∧ ∃ u', expected_action_utility fork_self "s0" "left" = Ok u'
          ∧ py_gt u' 10 = false.
Proof.
  assert (actionMaximumExpectedUtility fork_self "s0" = Ok (Some "right", 10%float))
    as Hbest by (vm_compute; reflexivity).
  destruct (X1_best_action_is_greedy fork_self "s0" "right" 10 Hbest)
    as (Ha & Eu & _ & _ & Hall).
  split_and!; [exact Hbest|exact Ha|exact Eu|].
  apply Hall. simpl. set_solver.
Defined.

Lemma X2_first_best_action_wins_witness :
  actionMaximumExpectedUtility (initial_self fork 0.9 0.01) "s0"
  = Ok (Some "left", 0%float)
  ∧ ∃ l1 l2,
      actionSet fork = l1 ++ "left" :: l2
      ∧ ∀ a', a' ∈ l1 →
              ∃ u', expected_action_utility (initial_self fork 0.9 0.01) "s0" a' = Ok u'
                    ∧ (is_nan u' = true ∨ (u' <? 0)%float = true).
Proof.
  assert (actionMaximumExpectedUtility (initial_self fork 0.9 0.01) "s0"
          = Ok (Some "left", 0%float)) as Hbest by (vm_compute; reflexivity).
  split; [exact Hbest|].
  exact (X2_first_best_action_wins (initial_self fork 0.9 0.01) "s0" "left" 0 Hbest).
Defined.

Lemma X4_policy_is_greedy_witness :
  policy (solved (__init__ 2 chain 0.9 0.01)) !! "s0" = Some (Some "go")
  ∧ "s0" ∈ stateSet chain
  ∧ "go" ∈ actionSet chain.
Proof.
  assert (policy (solved (__init__ 2 chain 0.9 0.01)) !! "s0" = Some (Some "go"))
    as Hpol by (vm_compute; reflexivity).
  destruct (X4_policy_is_greedy 2 chain 0.9 0.01 _ _ "s0" "go" chain_returns Hpol)
    as (Hs & Ha & _).
  split_and!; [exact Hpol|exact Hs|exact Ha].
Defined.

Lemma X5_constructor_exceptions_witness :
  __init__ 2 open_chain 0.9 0.01 = Some (Raise KeyError)
  ∧ ((KeyError = ZeroDivisionError ∧ (0.9 =? 0)%float = true)
     ∨ (KeyError = KeyError
        ∧ (0.9 =? 0)%float = false
        ∧ ∃ s a s', s ∈ stateSet open_chain ∧ a ∈ actionSet open_chain
                    ∧ s' ∈ stateSet open_chain
                    ∧ transition open_chain s a !! s' = None)).
Proof.
  assert (__init__ 2 open_chain 0.9 0.01 = Some (Raise KeyError)) as Hinit
    by (vm_compute; reflexivity).
  split; [exact Hinit|].
  exact (X5_constructor_exceptions 2 open_chain 0.9 0.01 KeyError Hinit).
Defined.

Lemma X6_keys_are_the_states_witness :
  environment (solved (__init__ 2 chain 0.9 0.01)) = chain
  ∧ (is_Some (valueUtility (solved (__init__ 2 chain 0.9 0.01)) !! "s2")
     ↔ "s2" ∈ stateSet chain).
Proof.
  destruct (X6_keys_are_the_states 2 chain 0.9 0.01 _ _ chain_returns)
    as (He & _ & _ & Hkeys).
  split; [exact He|]. exact (proj1 (Hkeys "s2")).
Defined.

Lemma X7_console_protocol_witness :
  ∃ n self1 c,
    after_sweeps n (initial_self chain 0.9 0.01) infinity = Ok (self1, c)
    ∧ valueUtility (solved (__init__ 2 chain 0.9 0.01)) = valueUtility self1
    ∧ length (console (__init__ 2 chain 0.9 0.01)) = 2 * n
    ∧ ∀ i, i < n →
           ∃ ag ci,
             after_sweeps (S i) (initial_self chain 0.9 0.01) infinity = Ok (ag, ci)
             ∧ console (__init__ 2 chain 0.9 0.01) !! (2 * i)
               = Some (DisplayValueFunction (valueUtility ag) i)
             ∧ console (__init__ 2 chain 0.9 0.01) !! (2 * i + 1)
               = Some (Print i ci).
Proof.
  exact (X7_console_protocol 2 chain 0.9 0.01 _ _ chain_returns).
Defined.

Lemma X8_bound_below_zero_never_returns_witness :
  (0.01 * (1 - (-0.5)) / (-0.5) <? 0)%float = true
  ∧ (__init__ 5 chain (-0.5) 0.01 = None
     ∨ ∃ e, __init__ 5 chain (-0.5) 0.01 = Some (Raise e)).
Proof.
  split; [reflexivity|].
  exact (X8_bound_below_zero_never_returns 5 chain (-0.5) 0.01 eq_refl).
Defined.

Lemma X9_nan_parameters_skip_the_loop_witness :
  is_nan nan = true
  ∧ __init__ 1 chain nan 0.01
    = Some (pol ← build_policy (initial_self chain nan 0.01);
            Ok (set_policy pol (initial_self chain nan 0.01), [])).
Proof.
  split; [reflexivity|].
  exact (X9_nan_parameters_skip_the_loop 0 chain nan 0.01 (or_introl eq_refl) eq_refl).
Defined.

Lemma X10_sweep_skips_final_state_mappings_witness :
  sweep (with_transition (transition open_chain) (initial_self chain 0.9 0.01))
  = sweep (initial_self chain 0.9 0.01).
Proof.
  apply (X10_sweep_skips_final_state_mappings (initial_self chain 0.9 0.01)
           (transition open_chain)).
  intros s a Hs Hfinal _. simpl in Hs, Hfinal.
  apply elem_of_cons in Hs as [->|Hs]; [reflexivity|].
  apply list_elem_of_singleton in Hs as ->. set_solver.
Defined.

Lemma X11_construction_reads_every_mapping_witness : total_transitions chain.
Proof.
  exact (X11_construction_reads_every_mapping 2 chain 0.9 0.01 _ _ chain_returns).
Defined.

Lemma X12_zero_rewards_stop_after_one_sweep_witness :
  ∃ self out,
    __init__ 2 chain 0.9 0.01 = Some (Ok (self, out))
    ∧ length out ≤ 2
    ∧ ∀ s, s ∈ stateSet chain → s ∉ finalStateSet chain →
           valueUtility self !! s = Some 0%float.
Proof.
  apply (X12_zero_rewards_stop_after_one_sweep 0 chain 0.9 0.01);
    [reflexivity|reflexivity|reflexivity|exact chain_total|discriminate| |].
  - intros s Hs Hfinal. simpl in Hs, Hfinal.
    apply elem_of_cons in Hs as [->|Hs]; [reflexivity|].
    apply list_elem_of_singleton in Hs as ->. set_solver.
  - intros s a s' p _ _ _ Hs' Hp. simpl in Hs', Hp.
    apply elem_of_cons in Hs' as [->|Hs'].
    + vm_compute in Hp. injection Hp as <-. reflexivity.
    + apply list_elem_of_singleton in Hs' as ->.
      vm_compute in Hp. injection Hp as <-. reflexivity.
Defined.

Lemma X13_value_of_a_final_state_witness :
  valueUtility (solved (__init__ 2 chain 0.9 0.01)) !! "s1"
  = Some (match console (__init__ 2 chain 0.9 0.01) with
          | [] => 0%float
          | _ => reward chain "s1"
          end).
Proof.
  apply (X13_value_of_a_final_state 2 chain 0.9 0.01 _ _ "s1" chain_returns);
    simpl; set_solver.
Defined.

Lemma X14_finite_bound_runs_a_sweep_witness :
  (0.01 * (1 - 0.9) / 0.9 <? infinity)%float = true
  ∧ 2 ≤ length (console (__init__ 2 chain 0.9 0.01))
  ∧ ∀ s, s ∈ stateSet chain → s ∈ finalStateSet chain →
         valueUtility (solved (__init__ 2 chain 0.9 0.01)) !! s
         = Some (reward chain s).
Proof.
  split; [reflexivity|].
  exact (X14_finite_bound_runs_a_sweep 2 chain 0.9 0.01 _ _ eq_refl chain_returns).
Defined.

Lemma X15_getAction_raises_on_a_missing_entry_witness :
  getAction (initial_self sparse_chain 0.9 0.01) "s0" = Raise KeyError.
Proof.
  destruct (X15_getAction_raises_on_a_missing_entry
              (initial_self sparse_chain 0.9 0.01) "s0"
              (zero_valueUtility_covers sparse_chain)) as [[_ Hraise] _].
  apply Hraise. exists "go", "s0". simpl. split_and!; [set_solver..|].
  vm_compute; reflexivity.
Defined.
